(** * Wiener deconvolution sample (deconvolution.py)

    A shallow embedding of the numerical pipeline of [deconvolution.py]:
    [blur_edge], [motion_kernel], [defocus_kernel], [update] and [main] from
    the resized images onwards.

    Conventions.
    - NumPy float arrays are lists of rows over the real numbers: float32 and
      float64 arithmetic is idealised as exact real arithmetic.
    - A complex spectrum (an H x W x 2 array as produced by
      [cv.dft(..., DFT_COMPLEX_OUTPUT)]) is a list of rows of pairs
      (real part, imaginary part).
    - OpenCV routines whose bodies are not part of the script
      ([GaussianBlur], [warpAffine], [circle], [dft], [idft],
      [mulSpectrums]) are fields of the record [OpenCV]; statements quantify
      over every such record.
    - A run of [main] is a pair of the list of observable library events and
      either a value or the name of the Python exception that ended it. *)

From Stdlib Require Import String Strings.Byte.
From Stdlib Require Import Reals Lra Lia ZArith Bool Arith List.
Import ListNotations.
Open Scope R_scope.

(** ** Python values and exceptions *)

Module Py.

(** The outcome of a Python computation: a value, or an exception
    identified by the name of its class. *)
Inductive result (A : Type) : Type :=
| Ok (a : A)
| Raise (exn : string).
Arguments Ok {A} a.
Arguments Raise {A} exn.

(** Normalisation of one bound of a slice [l[a:b]] on a sequence of
    length [len]: a negative bound counts from the end, and the bound is
    clamped to [0, len]. *)
Definition norm_index (len : nat) (i : Z) : nat :=
  let j := if (i <? 0)%Z then (i + Z.of_nat len)%Z else i in
  Z.to_nat (Z.min (Z.max j 0) (Z.of_nat len)).

(** [l[start:stop]] *)
Definition slice {A : Type} (start stop : Z) (l : list A) : list A :=
  let a := norm_index (length l) start in
  let b := norm_index (length l) stop in
  firstn (b - a) (skipn a l).

(** [dict.get(key, default)] on an optional entry. *)
Definition get {A : Type} (o : option A) (default : A) : A :=
  match o with Some v => v | None => default end.

End Py.
Export Py.

(** ** NumPy arrays *)

Module Np.

Definition matrix := list (list R).
Definition complex := (R * R)%type.
Definition spectrum := list (list complex).

(** An array as NumPy sees it when the number of axes matters: the result
    of [np.zeros_like] has the shape of its argument, and a tuple of four
    numbers is array-like of shape (4,). *)
Inductive ndarray : Type :=
| Arr1 (v : list R)
| Arr2 (m : matrix).

(** [a.shape] of a two-dimensional array. *)
Definition shape {A : Type} (m : list (list A)) : nat * nat :=
  (length m, length (hd [] m)).

(** A well-formed [h] x [w] array: [h] rows, each of [w] entries. *)
Definition is_matrix {A : Type} (h w : nat) (m : list (list A)) : Prop :=
  length m = h /\ Forall (fun r => length r = w) m.

(** [m[y, x]] *)
Definition px (m : matrix) (y x : nat) : R := nth x (nth y m []) 0.

(** Element-wise combination of two sequences. *)
Fixpoint map2 {A B C : Type} (f : A -> B -> C) (l1 : list A) (l2 : list B)
  : list C :=
  match l1, l2 with
  | a :: l1', b :: l2' => f a b :: map2 f l1' l2'
  | _, _ => []
  end.

Definition mat_map (f : R -> R) (m : matrix) : matrix := map (map f) m.
Definition mat_map2 (f : R -> R -> R) (a b : matrix) : matrix :=
  map2 (map2 f) a b.

(** [a * b], [a + b] on arrays of equal shape; [1 - a]. *)
Definition mat_mul : matrix -> matrix -> matrix := mat_map2 Rmult.
Definition mat_add : matrix -> matrix -> matrix := mat_map2 Rplus.
Definition one_minus : matrix -> matrix := mat_map (fun v => 1 - v).

(** [np.ones((h, w))], [np.zeros((h, w))] *)
Definition ones (h w : nat) : matrix := repeat (repeat 1 w) h.
Definition zeros (h w : nat) : matrix := repeat (repeat 0 w) h.
Definition zeros_u8 (h w : nat) : list (list byte) :=
  repeat (repeat Byte.x00 w) h.

(** [a.sum()] *)
Definition row_sum (r : list R) : R := fold_right Rplus 0 r.
Definition mat_sum (m : matrix) : R := fold_right Rplus 0 (map row_sum m).

(** [np.zeros_like(a)] *)
Definition zeros_like (a : ndarray) : ndarray :=
  match a with
  | Arr1 v => Arr1 (map (fun _ => 0) v)
  | Arr2 m => Arr2 (mat_map (fun _ => 0) m)
  end.

(** Overwrite a prefix of [old] with [new]. *)
Fixpoint overlay {A : Type} (new old : list A) : list A :=
  match new, old with
  | a :: new', _ :: old' => a :: overlay new' old'
  | _, _ => old
  end.

(** [target[:kh, :kw] = src] for a two-dimensional [src] of shape
    (kh, kw).  Two indices on a one-dimensional array raise IndexError;
    a target region smaller than [src] cannot receive it (ValueError). *)
Definition setitem_topleft (target : ndarray) (kh kw : nat) (src : matrix)
  : result ndarray :=
  match target with
  | Arr1 _ => Raise "IndexError"
  | Arr2 m =>
      let (H, W) := shape m in
      if ((kh <=? H)%nat || (kh =? 1)%nat) && ((kw <=? W)%nat || (kw =? 1)%nat)
      then Ok (Arr2 (overlay (map2 (fun s t => overlay s t) src m) m))
      else Raise "ValueError"
  end.

(** [np.roll(l, shift)] along the only axis of [l]. *)
Definition roll {A : Type} (shift : Z) (l : list A) : list A :=
  let n := length l in
  if (n =? 0)%nat then l
  else
    let k := Z.to_nat (shift mod Z.of_nat n) in
    skipn (n - k) l ++ firstn (n - k) l.

(** [np.roll(m, shift, 0)] and [np.roll(m, shift, 1)] *)
Definition roll_axis0 (shift : Z) (m : matrix) : matrix := roll shift m.
Definition roll_axis1 (shift : Z) (m : matrix) : matrix :=
  map (roll shift) m.

(** The value of a uint8 sample. *)
Definition byte_val (b : byte) : R := IZR (Z.of_N (Byte.to_N b)).

(** [np.float32(a) / 255.0] on a uint8 array. *)
Definition u8_to_unit (m : list (list byte)) : matrix :=
  map (map (fun b => byte_val b / 255)) m.

End Np.
Export Np.

(** ** The OpenCV interface used by the script *)

Inductive interpolation : Type := INTER_CUBIC.
Inductive line_type : Type := LINE_AA.

(** A 2 x 3 affine matrix, row by row. *)
Definition affine := ((R * R * R) * (R * R * R))%type.

Record OpenCV : Type := {
  (** [cv.GaussianBlur(src, ksize, sigmaX)] *)
  GaussianBlur : matrix -> nat * nat -> R -> matrix;
  (** [cv.warpAffine(src, M, dsize, flags=...)]; the library rejects some
      arguments with an exception of its own. *)
  warpAffine : matrix -> affine -> nat * nat -> interpolation -> result matrix;
  (** [cv.circle(img, center, radius, color, thickness, lineType, shift)]:
      the uint8 canvas after drawing. *)
  circle : list (list byte) -> nat * nat -> nat -> byte -> Z -> line_type
           -> nat -> list (list byte);
  (** [cv.dft(src, flags=cv.DFT_COMPLEX_OUTPUT, nonzeroRows=n)] *)
  dft : ndarray -> nat -> spectrum;
  (** [cv.idft(src, flags=cv.DFT_SCALE | cv.DFT_REAL_OUTPUT)] *)
  idft : spectrum -> matrix;
  (** [cv.mulSpectrums(a, b, 0)] *)
  mulSpectrums : spectrum -> spectrum -> spectrum
}.

(** What the script relies on from the library: blurring keeps the shape of
    its input, drawing happens on the canvas it is given, and resampling
    returns an array of the requested size [dsize = (width, height)] when
    that size is not empty. *)
Record OpenCV_shapes (cv : OpenCV) : Prop := {
  GaussianBlur_shape :
    forall h w src ksize sigma,
      is_matrix h w src -> is_matrix h w (GaussianBlur cv src ksize sigma);
  circle_shape :
    forall h w img c r col t lt sh,
      is_matrix h w img -> is_matrix h w (circle cv img c r col t lt sh);
  warpAffine_shape :
    forall src M wd ht fl out,
      (0 < wd)%nat -> (0 < ht)%nat ->
      warpAffine cv src M (wd, ht) fl = Ok out -> is_matrix ht wd out
}.

(** [cv.copyMakeBorder(img, d, d, d, d, cv.BORDER_WRAP)]: the image is
    continued periodically by [d] samples on every side. *)
Definition wrap_index (n d i : nat) : nat :=
  Z.to_nat ((Z.of_nat i - Z.of_nat d) mod Z.of_nat n).

Definition copyMakeBorder_wrap (img : matrix) (d : nat) : matrix :=
  let (h, w) := shape img in
  map (fun i =>
         map (fun j => px img (wrap_index h d i) (wrap_index w d j))
             (seq 0 (w + 2 * d)))
      (seq 0 (h + 2 * d)).

(** ** Run monad: observable events and exceptions *)

Inductive event : Type :=
| EvDft                                   (* a forward transform was run *)
| EvIdft                                  (* an inverse transform was run *)
| EvMulSpectrums
| EvImshow (win : string) (img : matrix)  (* an array was handed to a window *)
| EvCopyMakeBorder (d : nat)              (* cv.copyMakeBorder(_, d, d, d, d, _) returned *)
| EvGaussianBlur (ksize : nat * nat).     (* cv.GaussianBlur(_, ksize, -1) returned *)

Definition run (A : Type) : Type := (list event * result A)%type.

Definition ret {A : Type} (a : A) : run A := ([], Ok a).

Definition bind {A B : Type} (m : run A) (k : A -> run B) : run B :=
  match m with
  | (t, Ok a) => let (t', r) := k a in (t ++ t', r)
  | (t, Raise e) => (t, Raise e)
  end.

Definition emit (e : event) : run unit := ([e], Ok tt).
Definition lift {A : Type} (r : result A) : run A := ([], r).

Notation "x <- m ;; k" := (bind m (fun x => k))
  (at level 61, m at next level, right associativity).
Notation "m ;;; k" := (bind m (fun _ => k))
  (at level 61, right associativity).

(** ** The script *)

Module Deconvolution.

(** *** blur_edge *)

(** [np.dstack([x, w-x-1, y, h-y-1]).min(-1)] at index (y, x). *)
Definition dist_to_edge (h w y x : nat) : Z :=
  Z.min (Z.of_nat x)
    (Z.min (Z.of_nat w - Z.of_nat x - 1)
       (Z.min (Z.of_nat y) (Z.of_nat h - Z.of_nat y - 1))).

(** [np.minimum(np.float32(dist)/d, 1.0)] at index (y, x). *)
Definition edge_weight (h w d y x : nat) : R :=
  Rmin (IZR (dist_to_edge h w y x) / INR d) 1.

(** The weight array over [np.indices((h, w))]. *)
Definition edge_weights (h w d : nat) : matrix :=
  map (fun y => map (fun x => edge_weight h w d y x) (seq 0 w)) (seq 0 h).

(** [a[d:-d, d:-d]] *)
Definition crop (d : nat) (m : matrix) : matrix :=
  map (slice (Z.of_nat d) (- Z.of_nat d))
      (slice (Z.of_nat d) (- Z.of_nat d) m).

(** [img_blur]: the wrapped, blurred and cropped copy of the image. *)
Definition edge_blurred (cv : OpenCV) (img : matrix) (d : nat) : matrix :=
  let img_pad := copyMakeBorder_wrap img d in
  crop d (GaussianBlur cv img_pad ((2 * d + 1)%nat, (2 * d + 1)%nat) (-1)).

(** The default of the parameter [d] in [def blur_edge(img, d=31)]. *)
Definition blur_edge_default_d : nat := 31.

Definition blur_edge (cv : OpenCV) (img : matrix) (d : nat) : matrix :=
  let (h, w) := shape img in
  let img_blur := edge_blurred cv img d in
  let w' := edge_weights h w d in
  mat_add (mat_mul img w') (mat_mul img_blur (one_minus w')).

(** *** motion_kernel and defocus_kernel *)

Definition default_sz : nat := 65.

Definition motion_kernel (cv : OpenCV) (angle : R) (d sz : nat)
  : result matrix :=
  let kern := ones 1 d in
  let c := cos angle in
  let s := sin angle in
  let sz2 := (sz / 2)%nat in
  let v := (INR d - 1) * (5 / 10) in
  let tx := INR sz2 - (c * v + (- s) * 0) in
  let ty := INR sz2 - (s * v + c * 0) in
  warpAffine cv kern ((c, - s, tx), (s, c, ty)) (sz, sz) INTER_CUBIC.

Definition defocus_kernel (cv : OpenCV) (d sz : nat) : matrix :=
  let kern := zeros_u8 sz sz in
  let kern := circle cv kern (sz, sz) d Byte.xff (-1)%Z LINE_AA 1 in
  u8_to_unit kern.

(** The branch [if defocus: ... else: ...] of [update]. *)
Definition synth_kernel (cv : OpenCV) (defocus : bool) (ang : R)
           (d sz : nat) : result matrix :=
  if defocus then Ok (defocus_kernel cv d sz) else motion_kernel cv ang d sz.

(** *** The steps of update *)

Record trackbars : Type := {
  tb_angle : nat;   (* 'angle', 0..180 *)
  tb_d : nat;       (* 'd', 0..50 *)
  tb_snr : nat      (* 'SNR (db)', 0..50 *)
}.

(** [np.deg2rad] *)
Definition deg2rad (x : R) : R := x * (PI / 180).

(** [10**(-0.1*v)] *)
Definition noise_level (v : nat) : R := Rpower 10 (- (1 / 10) * INR v).

(** [psf /= psf.sum()] *)
Definition normalize (psf : matrix) : matrix :=
  let s := mat_sum psf in mat_map (fun v => v / s) psf.

(** The result of [cv.selectROI]: the tuple (x, y, w, h). *)
Definition roi := (Z * Z * Z * Z)%type.

(** A tuple of four numbers seen as an array. *)
Definition asarray (r : roi) : ndarray :=
  let '(x, y, w, h) := r in Arr1 [IZR x; IZR y; IZR w; IZR h].

(** [psf_pad = np.zeros_like(roi_bw); psf_pad[:kh, :kw] = psf] *)
Definition pad_psf (roi_bw : roi) (psf : matrix) : result ndarray :=
  let psf_pad := zeros_like (asarray roi_bw) in
  let (kh, kw) := shape psf in
  setitem_topleft psf_pad kh kw psf.

(** [(PSF**2).sum(-1)] *)
Definition spectrum_sq (S : spectrum) : spectrum :=
  map (map (fun p => (fst p ^ 2, snd p ^ 2))) S.
Definition sum_last (S : spectrum) : matrix :=
  map (map (fun p => fst p + snd p)) S.

(** [PSF2 + noise] *)
Definition wiener_denominator (PSF : spectrum) (noise : R) : matrix :=
  let PSF2 := sum_last (spectrum_sq PSF) in
  mat_map (fun v => v + noise) PSF2.

(** [PSF / (PSF2 + noise)[..., np.newaxis]] *)
Definition div_newaxis (S : spectrum) (den : matrix) : spectrum :=
  map2 (map2 (fun p q => (fst p / q, snd p / q))) S den.

Definition wiener_inverse (PSF : spectrum) (noise : R) : spectrum :=
  div_newaxis PSF (wiener_denominator PSF noise).

(** [-k//2]: unary minus binds tighter than floor division. *)
Definition neg_floordiv2 (k : nat) : Z := (- Z.of_nat k / 2)%Z.

(** [np.roll(res, -kh//2, 0)] then [np.roll(res, -kw//2, 1)] *)
Definition recenter (kh kw : nat) (res : matrix) : matrix :=
  let res := roll_axis0 (neg_floordiv2 kh) res in
  roll_axis1 (neg_floordiv2 kw) res.

(** *** update *)

Definition win : string := "deconvolution".

Definition update (cv : OpenCV) (IMG_BW : spectrum) (roi_bw : roi)
           (defocus : bool) (tb : trackbars) : run unit :=
  let ang := deg2rad (INR (tb_angle tb)) in
  let d := tb_d tb in
  let noise := noise_level (tb_snr tb) in
  psf <- lift (synth_kernel cv defocus ang d default_sz) ;;
  emit (EvImshow "psf" psf) ;;;
  let psf := normalize psf in
  let (kh, kw) := shape psf in
  psf_pad <- lift (pad_psf roi_bw psf) ;;
  emit EvDft ;;;
  let PSF := dft cv psf_pad kh in
  let iPSF := wiener_inverse PSF noise in
  emit EvMulSpectrums ;;;
  let RES_BW := mulSpectrums cv IMG_BW iPSF in
  emit EvIdft ;;;
  let res_bw := idft cv RES_BW in
  let res_bw := recenter kh kw res_bw in
  emit (EvImshow win res_bw).

(** *** The options and the grayscale image of main *)

Record options : Type := {
  opt_circle : bool;          (* '--circle' in opts *)
  opt_angle : option nat;     (* opts.get('--angle', 135) *)
  opt_d : option nat;         (* opts.get('--d', 22) *)
  opt_snr : option nat        (* opts.get('--snr', 25) *)
}.

Definition initial_trackbars (o : options) : trackbars :=
  {| tb_angle := get (opt_angle o) 135%nat;
     tb_d := get (opt_d o) 22%nat;
     tb_snr := get (opt_snr o) 25%nat |}.

(** [img_bw = np.float32(img_bw)/255.0], executed twice
    before [blur_edge(img_bw)]. *)
Definition main_unit_image (img : list (list byte)) : matrix :=
  let img_bw := u8_to_unit img in
  mat_map (fun v => v / 255) img_bw.

(** [img_bw = blur_edge(img_bw)] *)
Definition main_conditioned (cv : OpenCV) (img : list (list byte))
  : matrix :=
  blur_edge cv (main_unit_image img) blur_edge_default_d.

(** No option given on the command line. *)
Definition no_options : options :=
  {| opt_circle := false; opt_angle := None; opt_d := None;
     opt_snr := None |}.

End Deconvolution.
Import Deconvolution.

(** ** Further parts of the script *)

Module Session.

(** *** The affine map of motion_kernel

    [A = np.float32([[c, -s, 0], [s, c, 0]])] with its last column set by
    [A[:,2] = (sz2, sz2) - np.dot(A[:,:2], ((d-1)*0.5, 0))]. *)
Definition motion_affine (angle : R) (d sz : nat) : affine :=
  let c := cos angle in
  let s := sin angle in
  let sz2 := (sz / 2)%nat in
  let v := (INR d - 1) * (5 / 10) in
  ((c, - s, INR sz2 - (c * v + (- s) * 0)),
   (s, c, INR sz2 - (s * v + c * 0))).

(** The point a 2 x 3 affine matrix sends (x, y) to. *)
Definition apply_affine (M : affine) (p : R * R) : R * R :=
  let '((a, b, tx), (c, d, ty)) := M in
  (a * fst p + b * snd p + tx, c * fst p + d * snd p + ty).

(** *** Cropping to the selected rectangle

    [img[int(r[1]):int(r[1]+r[3]), int(r[0]):int(r[0]+r[2])]] *)
Definition crop_roi {A : Type} (r : roi) (img : list (list A))
  : list (list A) :=
  let '(x, y, w, h) := r in
  map (slice x (x + w)%Z) (slice y (y + h)%Z img).

(** *** blur_edge as main runs it

    [blur_edge] with the library calls it makes and the exceptions that end
    it: [cv.copyMakeBorder] rejects an empty image with cv2.error, and for
    [d = 0] the crop [img_blur] has shape (0, 0), which NumPy cannot
    broadcast against an image that is not 1 x 1 (ValueError). *)
Definition is_empty {A : Type} (m : list (list A)) : bool :=
  let (h, w) := shape m in (h =? 0)%nat || (w =? 0)%nat.

Definition is_1x1 {A : Type} (m : list (list A)) : bool :=
  let (h, w) := shape m in (h =? 1)%nat && (w =? 1)%nat.

Definition blur_edge_run (cv : OpenCV) (img : matrix) (d : nat)
  : run matrix :=
  if is_empty img then lift (Raise "cv2.error")
  else
    emit (EvCopyMakeBorder d) ;;;
    emit (EvGaussianBlur ((2 * d + 1)%nat, (2 * d + 1)%nat)) ;;;
    if (d =? 0)%nat && negb (is_1x1 img) then lift (Raise "ValueError")
    else ret (blur_edge cv img d).

(** *** The colour channels

    [img_r = imCropped_color[..., 0]] and its siblings, then
    [np.float32(img_r)/255.0] and [blur_edge(img_r)]. *)
Definition pixel := (byte * byte * byte)%type.

Definition channel (k : nat) (p : pixel) : byte :=
  let '(c0, c1, c2) := p in
  match k with 0%nat => c0 | 1%nat => c1 | _ => c2 end.

Definition main_channel_conditioned (cv : OpenCV)
           (img_color : list (list pixel)) (roi_color : roi) (k : nat)
  : run matrix :=
  let imCropped_color := crop_roi roi_color img_color in
  let img_k := map (map (channel k)) imCropped_color in
  blur_edge_run cv (u8_to_unit img_k) blur_edge_default_d.

(** *** main up to the trackbars

    The model starts from the two images resized to 640 x 480 (lines 75-76)
    and the two selected rectangles (lines 84-85).  The crop
    [imCropped_bw] of line 87 is never read and is left out.  The value is
    the spectrum [IMG_BW]; the three colour spectra are computed and never
    read. *)
Definition frame_h : nat := 480.
Definition frame_w : nat := 640.

Definition main_setup (cv : OpenCV) (img : list (list byte))
           (img_color : list (list pixel)) (roi_color : roi)
  : run spectrum :=
  img_bw <- blur_edge_run cv (main_unit_image img) blur_edge_default_d ;;
  img_r <- main_channel_conditioned cv img_color roi_color 0 ;;
  img_g <- main_channel_conditioned cv img_color roi_color 1 ;;
  img_b <- main_channel_conditioned cv img_color roi_color 2 ;;
  emit EvDft ;;;
  let IMG_BW := dft cv (Arr2 img_bw) 0 in
  emit EvDft ;;;
  emit EvDft ;;;
  emit EvDft ;;;
  ret IMG_BW.

(** *** main up to the first call of update *)
Definition main (cv : OpenCV) (img : list (list byte))
           (img_color : list (list pixel)) (roi_bw roi_color : roi)
           (o : options) : run unit :=
  IMG_BW <- main_setup cv img img_color roi_color ;;
  update cv IMG_BW roi_bw (opt_circle o) (initial_trackbars o).

(** *** The key loop

    [while True: ch = cv.waitKey(); if ch == 27: break;
     if ch == ord(' '): defocus = not defocus; update(None)]
    run on the keys pressed so far, the sliders being left alone.  The
    value is [Some tt] once the loop has been left (and 'Done' is printed),
    [None] while [cv.waitKey] is still waiting for a key. *)
Fixpoint key_loop (cv : OpenCV) (IMG_BW : spectrum) (roi_bw : roi)
         (tb : trackbars) (defocus : bool) (keys : list Z)
  : run (option unit) :=
  match keys with
  | [] => ret None
  | ch :: keys' =>
      if (ch =? 27)%Z then ret (Some tt)
      else if (ch =? 32)%Z then
        update cv IMG_BW roi_bw (negb defocus) tb ;;;
        key_loop cv IMG_BW roi_bw tb (negb defocus) keys'
      else key_loop cv IMG_BW roi_bw tb defocus keys'
  end.


End Session.
Import Session.

(** A small instance of the interface, used to evaluate the definitions on
    concrete inputs: the blur returns a black image, resampling fills the
    requested canvas with ones, drawing fills the canvas with the colour. *)
Definition cv_plain : OpenCV :=
  {| GaussianBlur := fun src _ _ => mat_map (fun _ => 0) src;
     warpAffine := fun _ _ dsize _ => Ok (ones (snd dsize) (fst dsize));
     circle := fun img _ _ col _ _ _ => map (map (fun _ => col)) img;
     dft := fun _ _ => [];
     idft := fun _ => [];
     mulSpectrums := fun a _ => a |}.

(** A second instance, whose drawing paints the first row of the canvas
    and leaves the other rows as they are. *)
Definition cv_dot : OpenCV :=
  {| GaussianBlur := GaussianBlur cv_plain;
     warpAffine := warpAffine cv_plain;
     circle := fun img _ _ col _ _ _ =>
                 match img with
                 | r :: rows => map (fun _ => col) r :: rows
                 | [] => []
                 end;
     dft := dft cv_plain;
     idft := idft cv_plain;
     mulSpectrums := mulSpectrums cv_plain |}.

(** * Properties *)

(** ** Lists and arrays *)

Section ListFacts.
Context {A B C : Type}.

Lemma length_map2 (f : A -> B -> C) l1 l2 :
  length (map2 f l1 l2) = Nat.min (length l1) (length l2).
Proof.
  revert l2; induction l1 as [|a l1 IH]; intros [|b l2]; simpl; auto.
Qed.

Lemma nth_map2 (f : A -> B -> C) l1 l2 i d1 d2 d :
  (i < length l1)%nat -> (i < length l2)%nat ->
  nth i (map2 f l1 l2) d = f (nth i l1 d1) (nth i l2 d2).
Proof.
  revert l2 i; induction l1 as [|a l1 IH]; intros [|b l2] [|i]; simpl;
    intros H1 H2; try lia; auto.
  apply IH; lia.
Qed.

Lemma map2_map_r (f : A -> B -> C) (g : A -> B) l :
  map2 f l (map g l) = map (fun a => f a (g a)) l.
Proof. induction l as [|a l IH]; simpl; congruence. Qed.

Lemma map2_map_map_r (f : A -> B -> C) (g : A -> B) (m : list (list A)) :
  map2 (map2 f) m (map (map g) m) = map (map (fun a => f a (g a))) m.
Proof.
  induction m as [|r m IH]; simpl; [reflexivity|].
  now rewrite IH, map2_map_r.
Qed.

Lemma is_matrix_row (h w : nat) (m : list (list A)) y :
  is_matrix h w m -> (y < h)%nat -> length (nth y m []) = w.
Proof.
  intros [Hl Hr] Hy. rewrite Forall_forall in Hr.
  apply Hr, nth_In. lia.
Qed.

Lemma is_matrix_shape (h w : nat) (m : list (list A)) :
  is_matrix h w m -> (0 < h)%nat -> shape m = (h, w).
Proof.
  intros [Hl Hr] Hh. unfold shape. rewrite Hl. f_equal.
  destruct m as [|r m]; simpl in *; [lia|].
  now inversion Hr.
Qed.

Lemma is_matrix_map (f : A -> B) h w (m : list (list A)) :
  is_matrix h w m -> is_matrix h w (map (map f) m).
Proof.
  intros [Hl Hr]. split; [now rewrite length_map|].
  apply Forall_map. eapply Forall_impl; [|exact Hr].
  intros r Hlen; simpl. now rewrite length_map.
Qed.

Lemma is_matrix_repeat (a : A) h w : is_matrix h w (repeat (repeat a w) h).
Proof.
  split; [apply repeat_length|].
  apply Forall_forall. intros r Hr. apply repeat_spec in Hr. subst r.
  apply repeat_length.
Qed.

Lemma In_slice (a : A) start stop l : In a (slice start stop l) -> In a l.
Proof.
  unfold slice. intros H.
  set (i := norm_index (length l) start) in *.
  set (j := (norm_index (length l) stop - i)%nat) in *.
  rewrite <- (firstn_skipn i l). apply in_or_app. right.
  rewrite <- (firstn_skipn j (skipn i l)). apply in_or_app. now left.
Qed.

Lemma length_slice_inner (n d : nat) (l : list A) :
  (0 < d)%nat -> length l = (n + 2 * d)%nat ->
  length (slice (Z.of_nat d) (- Z.of_nat d) l) = n.
Proof.
  intros Hd Hl. unfold slice, norm_index. rewrite Hl.
  destruct (Z.ltb_spec (Z.of_nat d) 0); [lia|].
  destruct (Z.ltb_spec (- Z.of_nat d) 0); [|lia].
  rewrite length_firstn, length_skipn, Hl. lia.
Qed.

End ListFacts.

Lemma is_matrix_map2 (f : R -> R -> R) h w (a b : matrix) :
  is_matrix h w a -> is_matrix h w b -> is_matrix h w (mat_map2 f a b).
Proof.
  intros Ha Hb. unfold mat_map2. split.
  - rewrite length_map2. destruct Ha as [-> _], Hb as [-> _]. lia.
  - apply Forall_forall. intros r Hr.
    destruct (In_nth _ _ [] Hr) as (y & Hy & <-).
    rewrite length_map2 in Hy.
    assert (Hya : (y < h)%nat) by (destruct Ha as [<- _]; lia).
    rewrite (nth_map2 _ _ _ _ [] []) by lia.
    rewrite length_map2.
    rewrite (is_matrix_row h w a), (is_matrix_row h w b) by assumption.
    lia.
Qed.

Lemma px_map (f : R -> R) h w (m : matrix) y x :
  is_matrix h w m -> (y < h)%nat -> (x < w)%nat ->
  px (mat_map f m) y x = f (px m y x).
Proof.
  intros Hm Hy Hx. unfold px, mat_map.
  assert (Hl : length m = h) by apply Hm.
  rewrite (nth_indep _ [] (map f [])) by (rewrite length_map; lia).
  rewrite map_nth.
  rewrite (nth_indep _ 0 (f 0))
    by (rewrite length_map, (is_matrix_row h w m); auto).
  apply map_nth.
Qed.

Lemma px_map2 (f : R -> R -> R) h w (a b : matrix) y x :
  is_matrix h w a -> is_matrix h w b -> (y < h)%nat -> (x < w)%nat ->
  px (mat_map2 f a b) y x = f (px a y x) (px b y x).
Proof.
  intros Ha Hb Hy Hx. unfold px, mat_map2.
  assert (Hla : length a = h) by apply Ha.
  assert (Hlb : length b = h) by apply Hb.
  rewrite (nth_map2 _ _ _ _ [] []) by lia.
  apply nth_map2.
  - rewrite (is_matrix_row h w a); auto.
  - rewrite (is_matrix_row h w b); auto.
Qed.

(** ** blur_edge *)

Lemma edge_weights_shape h w d : is_matrix h w (edge_weights h w d).
Proof.
  unfold edge_weights. split.
  - now rewrite length_map, length_seq.
  - apply Forall_map, Forall_forall. intros y _.
    now rewrite length_map, length_seq.
Qed.

Lemma px_edge_weights h w d y x :
  (y < h)%nat -> (x < w)%nat ->
  px (edge_weights h w d) y x = edge_weight h w d y x.
Proof.
  intros Hy Hx. unfold px, edge_weights.
  rewrite (nth_indep _ []
             ((fun y => map (fun x => edge_weight h w d y x) (seq 0 w)) 0%nat))
    by (rewrite length_map, length_seq; lia).
  rewrite (map_nth (fun y => map (fun x => edge_weight h w d y x) (seq 0 w))).
  rewrite seq_nth by lia. simpl.
  rewrite (nth_indep _ 0 (edge_weight h w d y 0%nat))
    by (rewrite length_map, length_seq; lia).
  rewrite (map_nth (fun x => edge_weight h w d y x)).
  now rewrite seq_nth by lia.
Qed.

Lemma copyMakeBorder_wrap_shape h w img d :
  is_matrix h w img -> (0 < h)%nat ->
  is_matrix (h + 2 * d) (w + 2 * d) (copyMakeBorder_wrap img d).
Proof.
  intros Hm Hh. unfold copyMakeBorder_wrap.
  rewrite (is_matrix_shape h w img Hm Hh). split.
  - now rewrite length_map, length_seq.
  - apply Forall_map, Forall_forall. intros i _.
    now rewrite length_map, length_seq.
Qed.

Lemma crop_shape h w d (m : matrix) :
  (0 < d)%nat -> is_matrix (h + 2 * d) (w + 2 * d) m ->
  is_matrix h w (crop d m).
Proof.
  intros Hd [Hl Hr]. unfold crop. split.
  - rewrite length_map. now apply length_slice_inner.
  - apply Forall_map, Forall_forall. intros r Hin.
    apply length_slice_inner; auto.
    rewrite Forall_forall in Hr. apply Hr.
    eapply In_slice, Hin.
Qed.

Lemma edge_blurred_shape cv h w img d :
  OpenCV_shapes cv -> is_matrix h w img -> (0 < h)%nat -> (0 < d)%nat ->
  is_matrix h w (edge_blurred cv img d).
Proof.
  intros Hcv Hm Hh Hd. unfold edge_blurred.
  apply crop_shape; auto.
  apply (GaussianBlur_shape cv Hcv).
  now apply copyMakeBorder_wrap_shape.
Qed.

Lemma edge_weight_interior h w d y x :
  (0 < d)%nat -> (Z.of_nat d <= dist_to_edge h w y x)%Z ->
  edge_weight h w d y x = 1.
Proof.
  intros Hd Hdist. unfold edge_weight.
  apply Rmin_right.
  assert (H0 : 0 < INR d) by (apply lt_0_INR; lia).
  apply Rmult_le_reg_r with (INR d); auto.
  unfold Rdiv. rewrite Rmult_assoc, Rinv_l by lra.
  rewrite Rmult_1_l, Rmult_1_r, INR_IZR_INZ.
  now apply IZR_le.
Qed.

Lemma blur_edge_shape cv h w img d :
  OpenCV_shapes cv -> is_matrix h w img -> (0 < h)%nat -> (0 < d)%nat ->
  is_matrix h w (blur_edge cv img d).
Proof.
  intros Hcv Hm Hh Hd. unfold blur_edge.
  rewrite (is_matrix_shape h w img Hm Hh).
  pose proof (edge_blurred_shape cv h w img d Hcv Hm Hh Hd) as Hb.
  pose proof (edge_weights_shape h w d) as Hw.
  unfold mat_add, mat_mul, one_minus, mat_map.
  repeat apply is_matrix_map2; auto.
  now apply is_matrix_map.
Qed.

Lemma blur_edge_px cv h w img d y x :
  OpenCV_shapes cv -> is_matrix h w img -> (0 < h)%nat -> (0 < d)%nat ->
  (y < h)%nat -> (x < w)%nat ->
  px (blur_edge cv img d) y x =
  px img y x * edge_weight h w d y x
  + px (edge_blurred cv img d) y x * (1 - edge_weight h w d y x).
Proof.
  intros Hcv Hm Hh Hd Hy Hx. unfold blur_edge.
  rewrite (is_matrix_shape h w img Hm Hh).
  pose proof (edge_blurred_shape cv h w img d Hcv Hm Hh Hd) as Hb.
  pose proof (edge_weights_shape h w d) as Hw.
  unfold mat_add, mat_mul, one_minus.
  rewrite (px_map2 _ h w); auto;
    try (apply is_matrix_map2; auto; now apply is_matrix_map).
  rewrite !(px_map2 _ h w); auto; try now apply is_matrix_map.
  rewrite (px_map _ h w); auto.
  now rewrite px_edge_weights.
Qed.

Lemma cv_plain_shapes : OpenCV_shapes cv_plain.
Proof.
  split; simpl.
  - intros h w src _ _ Hm. now apply is_matrix_map.
  - intros h w img _ _ col _ _ _ Hm. now apply is_matrix_map.
  - intros _ _ wd ht _ out _ _ [= <-]. apply is_matrix_repeat.
Qed.

Lemma cv_dot_shapes : OpenCV_shapes cv_dot.
Proof.
  split; simpl.
  - intros h w src _ _ Hm. now apply is_matrix_map.
  - intros h w [|r rows] _ _ col _ _ _ [Hl Hr]; [now split|].
    split; [exact Hl|].
    inversion Hr as [|? ? Hr0 Hrs]; subst.
    constructor; [now rewrite length_map|exact Hrs].
  - intros _ _ wd ht _ out _ _ [= <-]. apply is_matrix_repeat.
Qed.

(** C4.  For an image of h rows and w columns and a positive pad width d,
    [blur_edge] returns an array of the same dimensions; each output sample
    (y, x) is original * w + blurred * (1 - w) with w = min(dist / d, 1),
    where dist is the least of the four distances x, w-1-x, y and h-1-y to
    the left, right, top and bottom border; a sample at distance at least d
    from all four borders is returned unchanged. *)
Theorem blur_edge_blend (cv : OpenCV) (img : matrix) (h w d : nat) :
  OpenCV_shapes cv -> is_matrix h w img ->
  (0 < h)%nat -> (0 < w)%nat -> (0 < d)%nat ->
  is_matrix h w (blur_edge cv img d) /\
  forall y x, (y < h)%nat -> (x < w)%nat ->
    let dist := Z.min (Z.min (Z.of_nat x) (Z.of_nat w - 1 - Z.of_nat x))
                      (Z.min (Z.of_nat y) (Z.of_nat h - 1 - Z.of_nat y)) in
    let wt := Rmin (IZR dist / INR d) 1 in
    px (blur_edge cv img d) y x
    = px img y x * wt + px (edge_blurred cv img d) y x * (1 - wt)
    /\ ((Z.of_nat d <= dist)%Z -> px (blur_edge cv img d) y x = px img y x)
    /\ ((d <= x /\ x + d < w /\ d <= y /\ y + d < h)%nat ->
        px (blur_edge cv img d) y x = px img y x).
Proof.
  intros Hcv Hm Hh Hw Hd. split.
  - now apply blur_edge_shape.
  - intros y x Hy Hx dist wt.
    assert (Hdist : dist = dist_to_edge h w y x)
      by (unfold dist, dist_to_edge; lia).
    pose proof (blur_edge_px cv h w img d y x Hcv Hm Hh Hd Hy Hx) as Hpx.
    assert (Hint : (Z.of_nat d <= dist)%Z ->
                   px (blur_edge cv img d) y x = px img y x).
    { intros Hge. rewrite Hdist in Hge. rewrite Hpx.
      rewrite (edge_weight_interior h w d y x Hd Hge). lra. }
    split; [|split].
    + unfold wt. rewrite Hdist. exact Hpx.
    + exact Hint.
    + intros Hin. apply Hint. unfold dist. lia.
Qed.

Lemma blur_edge_blend_witness :
  let img := [[1; 2; 3]; [4; 5; 6]; [7; 8; 9]] in
  is_matrix 3 3 (blur_edge cv_plain img 1) /\
  forall y x, (y < 3)%nat -> (x < 3)%nat ->
    let dist := Z.min (Z.min (Z.of_nat x) (Z.of_nat 3 - 1 - Z.of_nat x))
                      (Z.min (Z.of_nat y) (Z.of_nat 3 - 1 - Z.of_nat y)) in
    let wt := Rmin (IZR dist / INR 1) 1 in
    px (blur_edge cv_plain img 1) y x
    = px img y x * wt + px (edge_blurred cv_plain img 1) y x * (1 - wt)
    /\ ((Z.of_nat 1 <= dist)%Z -> px (blur_edge cv_plain img 1) y x = px img y x)
    /\ ((1 <= x /\ x + 1 < 3 /\ 1 <= y /\ y + 1 < 3)%nat ->
        px (blur_edge cv_plain img 1) y x = px img y x).
Proof.
  intros img.
  apply (blur_edge_blend cv_plain img 3 3 1); try lia.
  - exact cv_plain_shapes.
  - split; [reflexivity|]. repeat constructor.
Defined.

(** ** The Wiener inverse filter *)

Lemma noise_level_pos v : 0 < noise_level v.
Proof. unfold noise_level, Rpower. apply exp_pos. Qed.

Lemma noise_level_lower v : (v <= 50)%nat -> 1 / 100000 <= noise_level v.
Proof.
  intros Hv. unfold noise_level.
  replace (1 / 100000) with (Rpower 10 (- INR 5)).
  - apply Rle_Rpower; [lra|].
    assert (Hle : INR v <= 50).
    { rewrite INR_IZR_INZ. apply IZR_le. lia. }
    simpl. lra.
  - rewrite Rpower_Ropp, Rpower_pow by lra. simpl. lra.
Qed.

Lemma wiener_inverse_map PSF noise :
  wiener_inverse PSF noise =
  map (map (fun P =>
              (fst P / (fst P * fst P + snd P * snd P + noise),
               snd P / (fst P * fst P + snd P * snd P + noise)))) PSF.
Proof.
  unfold wiener_inverse, wiener_denominator, div_newaxis, sum_last,
    spectrum_sq, mat_map.
  rewrite !map_map.
  rewrite (map_ext _ (map (fun p : complex => fst p ^ 2 + snd p ^ 2 + noise)))
    by (intros row; now rewrite !map_map).
  rewrite map2_map_map_r.
  apply map_ext. intros row. apply map_ext. intros [re im]. simpl.
  now rewrite !Rmult_1_r.
Qed.

(** C10.  For every slider value v between 0 and 50 the regularisation
    constant 10^(-0.1 v) is strictly positive (it is at least 10^-5), so the
    denominator |P|^2 + noise is strictly positive, hence non-zero, at every
    frequency bin. *)
Theorem wiener_denominator_positive (PSF : spectrum) (v : nat) :
  (0 <= v <= 50)%nat ->
  0 < noise_level v /\
  1 / 100000 <= noise_level v /\
  Forall (Forall (fun den => 0 < den /\ den <> 0))
         (wiener_denominator PSF (noise_level v)).
Proof.
  intros [_ Hv]. split; [apply noise_level_pos|].
  split; [now apply noise_level_lower|].
  pose proof (noise_level_pos v) as Hn.
  unfold wiener_denominator, sum_last, spectrum_sq, mat_map.
  rewrite !map_map.
  apply Forall_map, Forall_forall. intros row _.
  rewrite !map_map.
  apply Forall_map, Forall_forall. intros [re im] _. simpl.
  assert (0 <= re * re) by nra.
  assert (0 <= im * im) by nra.
  split; lra.
Qed.

Lemma wiener_denominator_positive_witness :
  0 < noise_level 25 /\
  1 / 100000 <= noise_level 25 /\
  Forall (Forall (fun den => 0 < den /\ den <> 0))
         (wiener_denominator [[(1, 0); (0, 0)]] (noise_level 25)).
Proof.
  apply (wiener_denominator_positive [[(1, 0); (0, 0)]] 25). lia.
Defined.

(** ** Kernel normalisation *)

Lemma row_sum_div (r : list R) (s : R) :
  row_sum (map (fun v => v / s) r) = row_sum r / s.
Proof.
  induction r as [|a r IH]; simpl.
  - unfold Rdiv. now rewrite Rmult_0_l.
  - rewrite IH. unfold Rdiv. now rewrite Rmult_plus_distr_r.
Qed.

Lemma mat_sum_div (m : matrix) (s : R) :
  mat_sum (mat_map (fun v => v / s) m) = mat_sum m / s.
Proof.
  unfold mat_sum, mat_map.
  induction m as [|r m IH]; simpl.
  - unfold Rdiv. now rewrite Rmult_0_l.
  - rewrite IH, row_sum_div. unfold Rdiv. now rewrite Rmult_plus_distr_r.
Qed.

Lemma mat_sum_normalize (psf : matrix) :
  mat_sum psf <> 0 -> mat_sum (normalize psf) = 1.
Proof.
  intros Hs. unfold normalize. rewrite mat_sum_div. now field.
Qed.

(** C5.  After [psf /= psf.sum()] the elements of the kernel sum to 1 (in
    particular to 1 within 1e-6), for the Motion and for the Defocus kernel
    alike, whenever the synthesised kernel has a non-zero sum. *)
Theorem normalized_kernel_sum (cv : OpenCV) (defocus : bool) (ang : R)
        (d sz : nat) (psf : matrix) :
  synth_kernel cv defocus ang d sz = Ok psf ->
  mat_sum psf <> 0 ->
  mat_sum (normalize psf) = 1 /\
  Rabs (mat_sum (normalize psf) - 1) <= 1 / 1000000.
Proof.
  intros _ Hs. rewrite (mat_sum_normalize psf Hs). split; [reflexivity|].
  replace (1 - 1) with 0 by lra. rewrite Rabs_R0. lra.
Qed.

Lemma normalized_kernel_sum_witness :
  mat_sum (normalize (ones 2 2)) = 1 /\
  Rabs (mat_sum (normalize (ones 2 2)) - 1) <= 1 / 1000000.
Proof.
  apply (normalized_kernel_sum cv_plain false 0 3 2 (ones 2 2)).
  - reflexivity.
  - unfold mat_sum, row_sum. simpl. lra.
Defined.

(** ** Recentering *)

Lemma nth_roll {A : Type} (s : Z) (l : list A) (i : nat) (a : A) :
  (i < length l)%nat ->
  nth i (roll s l) a
  = nth (Z.to_nat ((Z.of_nat i - s) mod Z.of_nat (length l))) l a.
Proof.
  intros Hi. unfold roll.
  destruct (Nat.eqb_spec (length l) 0) as [H0|Hn]; [lia|].
  set (n := length l) in *.
  assert (Hk : (0 <= s mod Z.of_nat n < Z.of_nat n)%Z)
    by (apply Z.mod_pos_bound; lia).
  set (k := Z.to_nat (s mod Z.of_nat n)).
  assert (Hkn : (k < n)%nat) by (subst k; lia).
  rewrite <- Zminus_mod_idemp_r.
  replace (s mod Z.of_nat n)%Z with (Z.of_nat k) by (subst k; lia).
  destruct (Nat.ltb_spec i k) as [Hlt|Hge].
  - rewrite app_nth1 by (rewrite length_skipn; fold n; lia).
    rewrite nth_skipn. f_equal.
    replace (Z.of_nat i - Z.of_nat k)%Z
      with (Z.of_nat (n - k + i) + (-1) * Z.of_nat n)%Z by lia.
    rewrite Z.mod_add by lia. rewrite Z.mod_small by lia. lia.
  - rewrite app_nth2 by (rewrite length_skipn; fold n; lia).
    rewrite length_skipn. fold n.
    rewrite nth_firstn.
    destruct (Nat.ltb_spec (i - (n - (n - k))) (n - k)) as [_|Hbad]; [|lia].
    f_equal. rewrite Z.mod_small by lia. lia.
Qed.

Lemma length_roll {A : Type} (s : Z) (l : list A) :
  length (roll s l) = length l.
Proof.
  unfold roll. destruct (Nat.eqb_spec (length l) 0); [reflexivity|].
  rewrite length_app, length_skipn, length_firstn. lia.
Qed.

Lemma px_recenter (kh kw H W : nat) (res : matrix) (i j : nat) :
  is_matrix H W res -> (i < H)%nat -> (j < W)%nat ->
  px (recenter kh kw res) i j
  = px res (Z.to_nat ((Z.of_nat i - neg_floordiv2 kh) mod Z.of_nat H))
           (Z.to_nat ((Z.of_nat j - neg_floordiv2 kw) mod Z.of_nat W)).
Proof.
  intros Hm Hi Hj. unfold px, recenter, roll_axis0, roll_axis1.
  assert (Hl : length res = H) by apply Hm.
  rewrite (nth_indep _ [] (roll (neg_floordiv2 kw) []))
    by (rewrite length_map, length_roll; lia).
  rewrite map_nth.
  rewrite (nth_roll (neg_floordiv2 kh) res i []) by lia. rewrite Hl.
  set (i' := Z.to_nat ((Z.of_nat i - neg_floordiv2 kh) mod Z.of_nat H)).
  assert (Hi' : (i' < H)%nat).
  { subst i'. pose proof (Z.mod_pos_bound (Z.of_nat i - neg_floordiv2 kh)
                            (Z.of_nat H)). lia. }
  pose proof (is_matrix_row H W res i' Hm Hi') as Hrow.
  rewrite nth_roll by lia. now rewrite Hrow.
Qed.

(** The two rolls as written: by -kh//2 rows and then by -kw//2 columns,
    // being Python's floor division applied to -kh and -kw; the output
    sample (i, j) is the input sample ((i - s0) mod H, (j - s1) mod W) for
    the shifts s0 = floor(-kh/2) and s1 = floor(-kw/2). *)
Theorem recenter_cyclic_shift (kh kw H W : nat) (res : matrix) :
  is_matrix H W res ->
  let s0 := (- Z.of_nat kh / 2)%Z in
  let s1 := (- Z.of_nat kw / 2)%Z in
  recenter kh kw res = roll_axis1 s1 (roll_axis0 s0 res) /\
  is_matrix H W (recenter kh kw res) /\
  forall i j, (i < H)%nat -> (j < W)%nat ->
    px (recenter kh kw res) i j
    = px res (Z.to_nat ((Z.of_nat i - s0) mod Z.of_nat H))
             (Z.to_nat ((Z.of_nat j - s1) mod Z.of_nat W)).
Proof.
  intros Hm s0 s1. split; [reflexivity|]. split.
  - destruct Hm as [Hl Hr]. unfold recenter, roll_axis0, roll_axis1. split.
    + now rewrite length_map, length_roll.
    + apply Forall_map, Forall_forall. intros r Hin.
      rewrite length_roll. rewrite Forall_forall in Hr. apply Hr.
      destruct (In_nth _ _ [] Hin) as (y & Hy & <-).
      rewrite length_roll in Hy. rewrite nth_roll by exact Hy.
      apply nth_In.
      pose proof (Z.mod_pos_bound (Z.of_nat y - neg_floordiv2 kh)
                    (Z.of_nat (length res))). lia.
  - intros i j Hi Hj. now apply px_recenter.
Qed.

Lemma recenter_cyclic_shift_witness :
  let res := [[1; 2; 3]; [4; 5; 6]; [7; 8; 9]] in
  let s0 := (- Z.of_nat 3 / 2)%Z in
  let s1 := (- Z.of_nat 3 / 2)%Z in
  recenter 3 3 res = roll_axis1 s1 (roll_axis0 s0 res) /\
  is_matrix 3 3 (recenter 3 3 res) /\
  forall i j, (i < 3)%nat -> (j < 3)%nat ->
    px (recenter 3 3 res) i j
    = px res (Z.to_nat ((Z.of_nat i - s0) mod Z.of_nat 3))
             (Z.to_nat ((Z.of_nat j - s1) mod Z.of_nat 3)).
Proof.
  intros res.
  apply (recenter_cyclic_shift 3 3 3 3 res).
  split; [reflexivity|]. repeat constructor.
Defined.

(** On the 65 x 65 kernels of [update] each shift is -33. *)
Lemma recenter_shift_default : neg_floordiv2 default_sz = (-33)%Z.
Proof. reflexivity. Qed.

Example recenter_example :
  recenter 3 3 [[1; 2; 3]; [4; 5; 6]; [7; 8; 9]]
  = [[9; 7; 8]; [3; 1; 2]; [6; 4; 5]].
Proof. reflexivity. Qed.

(** ** Kernel padding *)

Lemma pad_psf_IndexError (roi_bw : roi) (psf : matrix) :
  pad_psf roi_bw psf = Raise "IndexError".
Proof.
  destruct roi_bw as [[[x y] w] h]. unfold pad_psf. simpl.
  destruct (shape psf). reflexivity.
Qed.

Lemma update_after_synth cv IMG_BW roi_bw defocus tb psf :
  synth_kernel cv defocus (deg2rad (INR (tb_angle tb))) (tb_d tb) default_sz
  = Ok psf ->
  update cv IMG_BW roi_bw defocus tb
  = ([EvImshow "psf" psf], Raise "IndexError").
Proof.
  intros Hs. unfold update. rewrite Hs. simpl.
  destruct (shape (normalize psf)) as [kh kw].
  rewrite pad_psf_IndexError. reflexivity.
Qed.

Lemma update_synth_raise cv IMG_BW roi_bw defocus tb e :
  synth_kernel cv defocus (deg2rad (INR (tb_angle tb))) (tb_d tb) default_sz
  = Raise e ->
  update cv IMG_BW roi_bw defocus tb = ([], Raise e).
Proof. intros Hs. unfold update. rewrite Hs. reflexivity. Qed.

(** C2 (the script departs from it).  The array that receives the kernel
    is [np.zeros_like(roi_bw)], built from the selected rectangle
    (x, y, w, h) and therefore one-dimensional of length 4, not an array of
    the image's dimensions: the assignment [psf_pad[:kh, :kw] = psf] raises
    IndexError for every rectangle and every kernel, and in defocus mode
    [update] ends there, right after displaying the kernel. *)
Theorem psf_padding_raises (cv : OpenCV) (IMG_BW : spectrum) (roi_bw : roi)
        (tb : trackbars) (psf : matrix) :
  zeros_like (asarray roi_bw) = Arr1 [0; 0; 0; 0] /\
  pad_psf roi_bw psf = Raise "IndexError" /\
  update cv IMG_BW roi_bw true tb
  = ([EvImshow "psf" (defocus_kernel cv (tb_d tb) default_sz)],
     Raise "IndexError").
Proof.
  split; [now destruct roi_bw as [[[x y] w] h]|].
  split; [apply pad_psf_IndexError|].
  now apply update_after_synth.
Qed.

(** What the same assignment does on a two-dimensional target, such as
    [np.zeros_like(img)] for an H x W image: the kernel lands in the top-left
    corner and every other entry stays zero. *)

Lemma length_overlay {A : Type} (new old : list A) :
  length (overlay new old) = length old.
Proof.
  revert old; induction new as [|a new IH]; intros [|b old]; simpl; auto.
Qed.

Lemma nth_overlay {A : Type} (new old : list A) (i : nat) (d : A) :
  nth i (overlay new old) d
  = if (i <? length new)%nat && (i <? length old)%nat
    then nth i new d else nth i old d.
Proof.
  revert old i; induction new as [|a new IH]; intros [|b old] [|i]; simpl;
    auto; try (now rewrite andb_false_r); try (now rewrite IH).
Qed.

Lemma nth_map_zero (r : list R) (x : nat) :
  nth x (map (fun _ : R => 0) r) 0 = 0.
Proof. revert x; induction r as [|a r IH]; intros [|x]; simpl; auto. Qed.

Lemma px_zeros_like (m : matrix) (y x : nat) :
  px (mat_map (fun _ => 0) m) y x = 0.
Proof.
  unfold px, mat_map.
  change (nth y (map (map (fun _ : R => 0)) m) [])
    with (nth y (map (map (fun _ : R => 0)) m) (map (fun _ : R => 0) [])).
  rewrite map_nth. apply nth_map_zero.
Qed.

Lemma setitem_topleft_image_shaped (H W kh kw : nat) (img psf : matrix) :
  is_matrix H W img -> is_matrix kh kw psf ->
  (0 < H)%nat -> (kh <= H)%nat -> (kw <= W)%nat ->
  exists m,
    setitem_topleft (zeros_like (Arr2 img)) kh kw psf = Ok (Arr2 m) /\
    is_matrix H W m /\
    forall i j, (i < H)%nat -> (j < W)%nat ->
      px m i j = if (i <? kh)%nat && (j <? kw)%nat then px psf i j else 0.
Proof.
  intros Him Hpsf HH Hkh Hkw.
  set (z := mat_map (fun _ => 0) img).
  assert (Hz : is_matrix H W z) by (now apply is_matrix_map).
  exists (overlay (map2 (fun s t => overlay s t) psf z) z).
  pose proof (is_matrix_shape H W z Hz HH) as Hsh.
  unfold shape in Hsh. injection Hsh as Hsh0 Hsh1.
  simpl. fold z. rewrite Hsh0, Hsh1.
  destruct (Nat.leb_spec kh H) as [_|]; [|lia].
  destruct (Nat.leb_spec kw W) as [_|]; [|lia].
  simpl. split; [reflexivity|].
  assert (Hlz : length z = H) by apply Hz.
  assert (Hlp : length psf = kh) by apply Hpsf.
  assert (Hrow : forall i, (i < H)%nat ->
            nth i (overlay (map2 (fun s t => overlay s t) psf z) z) []
            = if (i <? kh)%nat then overlay (nth i psf []) (nth i z [])
              else nth i z []).
  { intros i Hi. rewrite nth_overlay, length_map2, Hlz, Hlp.
    replace (Nat.min kh H) with kh by lia.
    destruct (Nat.ltb_spec i kh) as [Hlt|Hge]; simpl.
    - destruct (Nat.ltb_spec i H); [|lia].
      apply nth_map2; lia.
    - reflexivity. }
  split.
  - split; [now rewrite length_overlay|].
    apply Forall_forall. intros r Hin.
    destruct (In_nth _ _ [] Hin) as (i & Hi & <-).
    rewrite length_overlay, Hlz in Hi. rewrite (Hrow i Hi).
    destruct (i <? kh)%nat; [rewrite length_overlay|];
      now apply (is_matrix_row H W z).
  - intros i j Hi Hj. unfold px at 1. rewrite (Hrow i Hi).
    destruct (Nat.ltb_spec i kh) as [Hlt|Hge]; simpl.
    + rewrite nth_overlay.
      rewrite (is_matrix_row kh kw psf i Hpsf Hlt).
      rewrite (is_matrix_row H W z i Hz Hi).
      destruct (Nat.ltb_spec j kw) as [Hjk|Hjk]; simpl.
      * destruct (Nat.ltb_spec j W); [reflexivity|lia].
      * apply (px_zeros_like img i j).
    + apply (px_zeros_like img i j).
Qed.

(** ** The grayscale image of main *)

Lemma is_matrix_main_unit_image h w (img : list (list byte)) :
  is_matrix h w img -> is_matrix h w (main_unit_image img).
Proof.
  intros Hm. unfold main_unit_image, u8_to_unit, mat_map.
  now apply is_matrix_map, is_matrix_map.
Qed.

(** ** Shape and range of the synthesised kernels *)

Lemma byte_val_range (b : byte) : 0 <= byte_val b <= 255.
Proof.
  unfold byte_val. pose proof (Byte.to_N_bounded b) as Hb.
  split; apply IZR_le; lia.
Qed.

(** The defocus kernel is a uint8 canvas divided by 255: a square array of
    side [sz] with entries between 0 and 1. *)
Lemma defocus_kernel_square_unit (cv : OpenCV) (d sz : nat) :
  OpenCV_shapes cv ->
  is_matrix sz sz (defocus_kernel cv d sz) /\
  Forall (Forall (fun v => 0 <= v <= 1)) (defocus_kernel cv d sz).
Proof.
  intros Hcv. unfold defocus_kernel, u8_to_unit. split.
  - apply is_matrix_map, (circle_shape cv Hcv), is_matrix_repeat.
  - apply Forall_map, Forall_forall. intros r _.
    apply Forall_map, Forall_forall. intros b _.
    pose proof (byte_val_range b). split.
    + apply Rmult_le_reg_r with 255; [lra|].
      unfold Rdiv. rewrite Rmult_assoc, Rinv_l by lra. lra.
    + apply Rmult_le_reg_r with 255; [lra|].
      unfold Rdiv. rewrite Rmult_assoc, Rinv_l by lra. lra.
Qed.

(** The motion kernel is whatever the cubic resampler returns for the
    requested [sz] x [sz] canvas; the script does not clamp its samples. *)
Lemma motion_kernel_square (cv : OpenCV) (ang : R) (d sz : nat) (k : matrix) :
  OpenCV_shapes cv -> (0 < sz)%nat ->
  motion_kernel cv ang d sz = Ok k -> is_matrix sz sz k.
Proof.
  intros Hcv Hsz Hk. unfold motion_kernel in Hk.
  exact (warpAffine_shape cv Hcv _ _ _ _ _ _ Hsz Hsz Hk).
Qed.

(** * Further properties *)

(** ** blur_edge: weights *)

Lemma dist_to_edge_nonneg h w y x :
  (y < h)%nat -> (x < w)%nat -> (0 <= dist_to_edge h w y x)%Z.
Proof. intros Hy Hx. unfold dist_to_edge. lia. Qed.

Lemma edge_weight_range h w d y x :
  (0 < d)%nat -> (y < h)%nat -> (x < w)%nat ->
  0 <= edge_weight h w d y x <= 1.
Proof.
  intros Hd Hy Hx. unfold edge_weight.
  assert (H0 : 0 < INR d) by (apply lt_0_INR; lia).
  assert (Hq : 0 <= IZR (dist_to_edge h w y x) / INR d).
  { apply Rmult_le_pos.
    - apply IZR_le. now apply dist_to_edge_nonneg.
    - left. now apply Rinv_0_lt_compat. }
  split.
  - apply Rmin_glb; lra.
  - apply Rmin_r.
Qed.

Lemma edge_weight_lt_1 h w d y x :
  (0 < d)%nat -> (dist_to_edge h w y x < Z.of_nat d)%Z ->
  edge_weight h w d y x < 1.
Proof.
  intros Hd Hlt. unfold edge_weight.
  assert (H0 : 0 < INR d) by (apply lt_0_INR; lia).
  apply Rle_lt_trans with (IZR (dist_to_edge h w y x) / INR d);
    [apply Rmin_l|].
  apply Rmult_lt_reg_r with (INR d); auto.
  unfold Rdiv. rewrite Rmult_assoc, Rinv_l by lra.
  rewrite Rmult_1_l, Rmult_1_r, INR_IZR_INZ.
  now apply IZR_lt.
Qed.

(** X1.  The samples on the outermost rows and columns of the image are
    replaced by the blurred copy: their distance to the border is 0, so
    their weight is 0. *)
Theorem blur_edge_border (cv : OpenCV) (img : matrix) (h w d y x : nat) :
  OpenCV_shapes cv -> is_matrix h w img -> (0 < d)%nat ->
  (y < h)%nat -> (x < w)%nat ->
  (y = 0 \/ x = 0 \/ y = h - 1 \/ x = w - 1)%nat ->
  edge_weight h w d y x = 0 /\
  px (blur_edge cv img d) y x = px (edge_blurred cv img d) y x.
Proof.
  intros Hcv Hm Hd Hy Hx Hb.
  assert (Hw : edge_weight h w d y x = 0).
  { unfold edge_weight.
    replace (dist_to_edge h w y x) with 0%Z by (unfold dist_to_edge; lia).
    unfold Rdiv. rewrite Rmult_0_l. apply Rmin_left. lra. }
  split; [exact Hw|].
  rewrite (blur_edge_px cv h w img d y x) by (auto; lia).
  rewrite Hw. lra.
Qed.

Lemma blur_edge_border_witness :
  let img := [[1; 2; 3]; [4; 5; 6]; [7; 8; 9]] in
  edge_weight 3 3 2 0 1 = 0 /\
  px (blur_edge cv_plain img 2) 0 1 = px (edge_blurred cv_plain img 2) 0 1.
Proof.
  intros img.
  apply (blur_edge_border cv_plain img 3 3 2 0 1); try lia.
  - exact cv_plain_shapes.
  - split; [reflexivity|]. repeat constructor.
Defined.

(** X2.  Every output sample of [blur_edge] is a convex combination of the
    original and the blurred sample: the weight lies in [0, 1] and the
    result lies between the smaller and the larger of the two. *)
Theorem blur_edge_between (cv : OpenCV) (img : matrix) (h w d y x : nat) :
  OpenCV_shapes cv -> is_matrix h w img -> (0 < d)%nat ->
  (y < h)%nat -> (x < w)%nat ->
  let a := px img y x in
  let b := px (edge_blurred cv img d) y x in
  0 <= edge_weight h w d y x <= 1 /\
  Rmin a b <= px (blur_edge cv img d) y x <= Rmax a b.
Proof.
  intros Hcv Hm Hd Hy Hx a b.
  pose proof (edge_weight_range h w d y x Hd Hy Hx) as Hw.
  split; [exact Hw|].
  rewrite (blur_edge_px cv h w img d y x) by (auto; lia).
  fold a b. set (t := edge_weight h w d y x) in *.
  unfold Rmin, Rmax. destruct (Rle_dec a b) as [Hab|Hab]; split; nra.
Qed.

Lemma blur_edge_between_witness :
  let img := [[1; 2; 3]; [4; 5; 6]; [7; 8; 9]] in
  let a := px img 1 1 in
  let b := px (edge_blurred cv_plain img 2) 1 1 in
  0 <= edge_weight 3 3 2 1 1 <= 1 /\
  Rmin a b <= px (blur_edge cv_plain img 2) 1 1 <= Rmax a b.
Proof.
  intros img.
  apply (blur_edge_between cv_plain img 3 3 2 1 1); try lia.
  - exact cv_plain_shapes.
  - split; [reflexivity|]. repeat constructor.
Defined.

(** X3.  The weight of a sample is 1 exactly when the sample lies at least
    d away from all four borders, that is in rows d .. h-1-d and columns
    d .. w-1-d; an image with h <= 2d or w <= 2d has no such sample. *)
Theorem edge_weight_one_iff (h w d y x : nat) :
  (0 < d)%nat -> (y < h)%nat -> (x < w)%nat ->
  (edge_weight h w d y x = 1 <->
   (d <= y /\ y + d < h /\ d <= x /\ x + d < w)%nat) /\
  ((h <= 2 * d \/ w <= 2 * d)%nat -> edge_weight h w d y x < 1).
Proof.
  intros Hd Hy Hx.
  assert (Hiff : edge_weight h w d y x = 1 <->
                 (d <= y /\ y + d < h /\ d <= x /\ x + d < w)%nat).
  { split.
    - intros H1.
      destruct (Z_lt_le_dec (dist_to_edge h w y x) (Z.of_nat d)) as [Hlt|Hge].
      + pose proof (edge_weight_lt_1 h w d y x Hd Hlt). lra.
      + unfold dist_to_edge in Hge. lia.
    - intros Hin. apply edge_weight_interior; auto.
      unfold dist_to_edge. lia. }
  split; [exact Hiff|].
  intros Hsmall. apply edge_weight_lt_1; auto.
  unfold dist_to_edge. lia.
Qed.

Lemma edge_weight_one_iff_witness :
  (edge_weight 5 5 2 2 2 = 1 <->
   (2 <= 2 /\ 2 + 2 < 5 /\ 2 <= 2 /\ 2 + 2 < 5)%nat) /\
  ((5 <= 2 * 2 \/ 5 <= 2 * 2)%nat -> edge_weight 5 5 2 2 2 < 1).
Proof. apply (edge_weight_one_iff 5 5 2 2 2); lia. Defined.

(** X4.  The weights are symmetric: mirroring a sample top to bottom or
    left to right leaves its weight unchanged. *)
Theorem edge_weight_mirror (h w d y x : nat) :
  (y < h)%nat -> (x < w)%nat ->
  edge_weight h w d (h - 1 - y) x = edge_weight h w d y x /\
  edge_weight h w d y (w - 1 - x) = edge_weight h w d y x.
Proof.
  intros Hy Hx. unfold edge_weight.
  split; do 3 f_equal; unfold dist_to_edge; lia.
Qed.

Lemma edge_weight_mirror_witness :
  edge_weight 4 6 3 (4 - 1 - 1) 2 = edge_weight 4 6 3 1 2 /\
  edge_weight 4 6 3 1 (6 - 1 - 2) = edge_weight 4 6 3 1 2.
Proof. apply (edge_weight_mirror 4 6 3 1 2); lia. Defined.

(** ** blur_edge: padding and cropping *)

Lemma nth_map_seq {A : Type} (f : nat -> A) (s n i : nat) (a : A) :
  (i < n)%nat -> nth i (map f (seq s n)) a = f (s + i)%nat.
Proof.
  revert s i; induction n as [|n IH]; intros s [|i] Hi; simpl; try lia.
  - f_equal. lia.
  - rewrite IH by lia. f_equal. lia.
Qed.

Lemma slice_inner {A : Type} (n d : nat) (l : list A) :
  (0 < d)%nat -> length l = (n + 2 * d)%nat ->
  slice (Z.of_nat d) (- Z.of_nat d) l = firstn n (skipn d l).
Proof.
  intros Hd Hl. unfold slice, norm_index. rewrite Hl.
  destruct (Z.ltb_spec (Z.of_nat d) 0); [lia|].
  destruct (Z.ltb_spec (- Z.of_nat d) 0); [|lia].
  f_equal; [lia|]. f_equal. lia.
Qed.

Lemma nth_slice_inner {A : Type} (n d : nat) (l : list A) (i : nat) (a : A) :
  (0 < d)%nat -> length l = (n + 2 * d)%nat -> (i < n)%nat ->
  nth i (slice (Z.of_nat d) (- Z.of_nat d) l) a = nth (d + i) l a.
Proof.
  intros Hd Hl Hi. rewrite (slice_inner n d l Hd Hl).
  rewrite nth_firstn.
  destruct (Nat.ltb_spec i n); [|lia].
  apply nth_skipn.
Qed.

Lemma wrap_index_inner (n d i : nat) :
  (i < n)%nat -> wrap_index n d (d + i) = i.
Proof.
  intros Hi. unfold wrap_index.
  replace (Z.of_nat (d + i) - Z.of_nat d)%Z with (Z.of_nat i) by lia.
  rewrite Z.mod_small by lia. lia.
Qed.

(** X5.  Cropping undoes the wrap-around padding: [a[d:-d, d:-d]] of
    [cv.copyMakeBorder(img, d, d, d, d, cv.BORDER_WRAP)] is the image
    itself, so with a blur that changes nothing [img_blur] would be the
    image. *)
Theorem crop_copyMakeBorder_wrap (img : matrix) (h w d : nat) :
  is_matrix h w img -> (0 < h)%nat -> (0 < w)%nat -> (0 < d)%nat ->
  crop d (copyMakeBorder_wrap img d) = img.
Proof.
  intros Hm Hh Hw Hd.
  pose proof (copyMakeBorder_wrap_shape h w img d Hm Hh) as [Hpl Hpr].
  assert (Hl : length img = h) by apply Hm.
  unfold crop. apply nth_ext with (d := []) (d' := []).
  - rewrite length_map, Hl. now apply length_slice_inner.
  - intros y Hy.
    rewrite length_map, (length_slice_inner h d _ Hd Hpl) in Hy.
    rewrite (nth_indep _ [] (slice (Z.of_nat d) (- Z.of_nat d) []))
      by (rewrite length_map, (length_slice_inner h d _ Hd Hpl); exact Hy).
    rewrite map_nth.
    rewrite (nth_slice_inner h d _ y [] Hd Hpl Hy).
    unfold copyMakeBorder_wrap.
    rewrite (is_matrix_shape h w img Hm Hh).
    rewrite (nth_map_seq _ 0 (h + 2 * d) (d + y)) by lia. simpl.
    rewrite wrap_index_inner by exact Hy.
    pose proof (is_matrix_row h w img y Hm Hy) as Hrow.
    apply nth_ext with (d := 0) (d' := 0).
    + rewrite Hrow. apply length_slice_inner; auto.
      now rewrite length_map, length_seq.
    + intros x Hx.
      rewrite (length_slice_inner w d) in Hx
        by (auto; now rewrite length_map, length_seq).
      rewrite (nth_slice_inner w d _ x 0 Hd) by
        (auto; now rewrite length_map, length_seq).
      rewrite (nth_map_seq _ 0 (w + 2 * d) (d + x)) by lia. simpl.
      rewrite wrap_index_inner by exact Hx.
      reflexivity.
Qed.

Lemma crop_copyMakeBorder_wrap_witness :
  crop 2 (copyMakeBorder_wrap [[1; 2; 3]; [4; 5; 6]] 2)
  = [[1; 2; 3]; [4; 5; 6]].
Proof.
  apply (crop_copyMakeBorder_wrap [[1; 2; 3]; [4; 5; 6]] 2 3 2); try lia.
  split; [reflexivity|]. repeat constructor.
Defined.

(** ** Cropping to the selected rectangle *)

Lemma slice_in_bounds {A : Type} (a n : nat) (l : list A) :
  (a + n <= length l)%nat ->
  slice (Z.of_nat a) (Z.of_nat a + Z.of_nat n) l = firstn n (skipn a l).
Proof.
  intros Hl. unfold slice, norm_index.
  destruct (Z.ltb_spec (Z.of_nat a) 0); [lia|].
  destruct (Z.ltb_spec (Z.of_nat a + Z.of_nat n) 0); [lia|].
  f_equal; [lia|]. f_equal. lia.
Qed.

Lemma crop_roi_rows {A : Type} (img : list (list A)) (H W y h : nat) :
  is_matrix H W img -> (y + h <= H)%nat ->
  length (firstn h (skipn y img)) = h /\
  forall row, In row (firstn h (skipn y img)) -> length row = W.
Proof.
  intros Hm Hy. assert (Hl : length img = H) by apply Hm. split.
  - rewrite length_firstn, length_skipn. lia.
  - intros row Hin. destruct Hm as [_ Hr]. rewrite Forall_forall in Hr.
    apply Hr. rewrite <- (firstn_skipn y img). apply in_or_app. right.
    rewrite <- (firstn_skipn h (skipn y img)). apply in_or_app. now left.
Qed.

Lemma crop_roi_shape {A : Type} (img : list (list A)) (H W x y w h : nat) :
  is_matrix H W img -> (y + h <= H)%nat -> (x + w <= W)%nat ->
  is_matrix h w
    (crop_roi (Z.of_nat x, Z.of_nat y, Z.of_nat w, Z.of_nat h) img).
Proof.
  intros Hm Hy Hx. unfold crop_roi.
  assert (Hl : length img = H) by apply Hm.
  rewrite (slice_in_bounds y h img) by lia.
  destruct (crop_roi_rows img H W y h Hm Hy) as [Hlen Hrows].
  split; [now rewrite length_map|].
  apply Forall_map, Forall_forall. intros row Hin.
  rewrite (slice_in_bounds x w row) by (rewrite (Hrows row Hin); lia).
  rewrite length_firstn, length_skipn, (Hrows row Hin). lia.
Qed.

(** X6.  For a rectangle (x, y, w, h) that lies inside an H x W image the
    crop has h rows and w columns and its sample (i, j) is the image's
    sample (y + i, x + j). *)
Theorem crop_roi_in_bounds {A : Type} (img : list (list A))
        (H W x y w h : nat) (a : A) :
  is_matrix H W img -> (y + h <= H)%nat -> (x + w <= W)%nat ->
  let r := (Z.of_nat x, Z.of_nat y, Z.of_nat w, Z.of_nat h) in
  is_matrix h w (crop_roi r img) /\
  forall i j, (i < h)%nat -> (j < w)%nat ->
    nth j (nth i (crop_roi r img) []) a = nth (x + j) (nth (y + i) img []) a.
Proof.
  intros Hm Hy Hx r. split; [now apply (crop_roi_shape img H W)|].
  unfold r, crop_roi.
  assert (Hl : length img = H) by apply Hm.
  rewrite (slice_in_bounds y h img) by lia.
  destruct (crop_roi_rows img H W y h Hm Hy) as [Hlen Hrows].
  intros i j Hi Hj.
  rewrite (nth_indep _ [] (slice (Z.of_nat x) (Z.of_nat x + Z.of_nat w) []))
    by (rewrite length_map; lia).
  rewrite map_nth.
  assert (Hrow : nth i (firstn h (skipn y img)) [] = nth (y + i) img []).
  { rewrite nth_firstn. destruct (Nat.ltb_spec i h); [|lia].
    apply nth_skipn. }
  rewrite Hrow.
  rewrite (slice_in_bounds x w)
    by (rewrite (is_matrix_row H W img (y + i) Hm); lia).
  rewrite nth_firstn. destruct (Nat.ltb_spec j w); [|lia].
  apply nth_skipn.
Qed.

Lemma crop_roi_in_bounds_witness :
  let img := [[1; 2; 3]; [4; 5; 6]; [7; 8; 9]] in
  let r := (Z.of_nat 1, Z.of_nat 1, Z.of_nat 2, Z.of_nat 2) in
  is_matrix 2 2 (crop_roi r img) /\
  forall i j, (i < 2)%nat -> (j < 2)%nat ->
    nth j (nth i (crop_roi r img) []) 0 = nth (1 + j) (nth (1 + i) img []) 0.
Proof.
  intros img.
  apply (crop_roi_in_bounds img 3 3 1 1 2 2 0); try lia.
  split; [reflexivity|]. repeat constructor.
Defined.

(** ** Recentering is a rotation *)

Lemma roll_roll {A : Type} (a b : Z) (l : list A) :
  roll a (roll b l) = roll (a + b) l.
Proof.
  destruct l as [|x0 l0] eqn:El; [reflexivity|]. rewrite <- El.
  assert (Hn : (0 < length l)%nat) by (subst l; simpl; lia).
  clear El. apply nth_ext with (d := x0) (d' := x0).
  - now rewrite !length_roll.
  - intros i Hi. rewrite !length_roll in Hi.
    rewrite nth_roll by (now rewrite length_roll).
    rewrite length_roll.
    set (n := Z.of_nat (length l)).
    assert (Hm : (0 <= (Z.of_nat i - a) mod n < n)%Z)
      by (apply Z.mod_pos_bound; subst n; lia).
    rewrite nth_roll by (fold n; lia). fold n.
    rewrite (nth_roll (a + b) l i) by exact Hi. fold n.
    do 2 f_equal.
    rewrite Z2Nat.id by lia.
    rewrite Zminus_mod_idemp_l. f_equal. lia.
Qed.

Lemma roll_0 {A : Type} (l : list A) : roll 0 l = l.
Proof.
  unfold roll. destruct (Nat.eqb_spec (length l) 0); [reflexivity|].
  rewrite Z.mod_0_l by lia. simpl. rewrite Nat.sub_0_r.
  now rewrite skipn_all, firstn_all.
Qed.

Lemma row_sum_app (l1 l2 : list R) :
  row_sum (l1 ++ l2) = row_sum l1 + row_sum l2.
Proof. induction l1 as [|a l1 IH]; simpl; [lra|]. rewrite IH. lra. Qed.

Lemma row_sum_roll (s : Z) (r : list R) : row_sum (roll s r) = row_sum r.
Proof.
  unfold roll. destruct (Nat.eqb_spec (length r) 0); [reflexivity|].
  set (j := (length r - Z.to_nat (s mod Z.of_nat (length r)))%nat).
  rewrite row_sum_app. rewrite <- (firstn_skipn j r) at 3.
  rewrite row_sum_app. lra.
Qed.

Lemma map_roll {A B : Type} (f : A -> B) (s : Z) (l : list A) :
  map f (roll s l) = roll s (map f l).
Proof.
  unfold roll. rewrite length_map.
  destruct (Nat.eqb_spec (length l) 0); [reflexivity|].
  now rewrite map_app, skipn_map, firstn_map.
Qed.

(** X8.  Recentering loses nothing: rolling the columns and then the rows
    back by the opposite shifts restores the array. *)
Theorem recenter_undo (kh kw : nat) (res : matrix) :
  roll_axis0 (- neg_floordiv2 kh)
    (roll_axis1 (- neg_floordiv2 kw) (recenter kh kw res)) = res.
Proof.
  unfold recenter, roll_axis0, roll_axis1.
  rewrite map_map.
  rewrite (map_ext _ (fun r => r)).
  - rewrite map_id, roll_roll.
    replace (- neg_floordiv2 kh + neg_floordiv2 kh)%Z with 0%Z by lia.
    apply roll_0.
  - intros r. rewrite roll_roll.
    replace (- neg_floordiv2 kw + neg_floordiv2 kw)%Z with 0%Z by lia.
    apply roll_0.
Qed.

(** X9.  Recentering only moves samples: the sum of the array is the same
    before and after. *)
Theorem recenter_sum (kh kw : nat) (res : matrix) :
  mat_sum (recenter kh kw res) = mat_sum res.
Proof.
  unfold recenter, roll_axis0, roll_axis1, mat_sum.
  rewrite map_map.
  rewrite (map_ext _ row_sum) by (intros r; apply row_sum_roll).
  rewrite map_roll. apply row_sum_roll.
Qed.

(** ** The inverse filter: regularisation *)

Lemma wiener_bin_bound (re im n : R) :
  0 < n ->
  let den := re * re + im * im + n in
  (re / den) * (re / den) + (im / den) * (im / den) <= 1 / (4 * n).
Proof.
  intros Hn den.
  assert (Ha : 0 <= re * re + im * im) by nra.
  assert (Hden : 0 < den) by (unfold den; lra).
  set (u := / den).
  assert (Hu : 0 < u) by (now apply Rinv_0_lt_compat).
  assert (Hud : u * den = 1) by (unfold u; apply Rinv_l; lra).
  replace (re / den * (re / den) + im / den * (im / den))
    with ((re * re + im * im) * (u * u)) by (unfold Rdiv; fold u; ring).
  set (a := re * re + im * im) in *.
  pose proof (Rle_0_sqr (a - n)) as Hsq. unfold Rsqr in Hsq.
  assert (H4 : 4 * n * a <= den * den).
  { replace (den * den) with ((a - n) * (a - n) + 4 * n * a)
      by (unfold den; ring).
    lra. }
  assert (Hu2 : 0 <= u * u) by nra.
  assert (H5 : 4 * n * a * (u * u) <= den * den * (u * u))
    by (apply Rmult_le_compat_r; assumption).
  replace (den * den * (u * u)) with ((u * den) * (u * den)) in H5 by ring.
  rewrite Hud, Rmult_1_l in H5.
  apply Rmult_le_reg_l with (4 * n); [lra|].
  replace (4 * n * (1 / (4 * n))) with 1 by (field; lra).
  lra.
Qed.

(** X10.  With a positive noise level the inverse filter is bounded
    whatever the kernel spectrum: at every bin the squared magnitude of the
    filter is at most 1 / (4 noise). *)
Theorem wiener_inverse_bounded (PSF : spectrum) (noise : R) :
  0 < noise ->
  Forall (Forall (fun q => fst q * fst q + snd q * snd q <= 1 / (4 * noise)))
         (wiener_inverse PSF noise).
Proof.
  intros Hn. rewrite wiener_inverse_map.
  apply Forall_map, Forall_forall. intros row _.
  apply Forall_map, Forall_forall. intros [re im] _. simpl.
  now apply wiener_bin_bound.
Qed.

Lemma wiener_inverse_bounded_witness :
  Forall (Forall (fun q => fst q * fst q + snd q * snd q <= 1 / (4 * 1)))
         (wiener_inverse [[(1, 0); (0, 0)]; [(0, 2); (3, 4)]] 1).
Proof.
  apply (wiener_inverse_bounded [[(1, 0); (0, 0)]; [(0, 2); (3, 4)]] 1). lra.
Defined.

Lemma Forall2_map_r_same {A B : Type} (P : A -> B -> Prop) (f : A -> B)
      (l : list A) :
  Forall (fun a => P a (f a)) l -> Forall2 P l (map f l).
Proof. induction 1; simpl; constructor; auto. Qed.

(** X11.  With a positive noise level the inverse filter has one bin per
    bin of the kernel spectrum, and a bin of the filter is zero exactly
    where the kernel spectrum is zero. *)
Theorem wiener_inverse_zero_bins (PSF : spectrum) (noise : R) :
  0 < noise ->
  Forall2 (Forall2 (fun P q => q = (0, 0) <-> P = (0, 0)))
          PSF (wiener_inverse PSF noise).
Proof.
  intros Hn. rewrite wiener_inverse_map.
  apply Forall2_map_r_same, Forall_forall. intros row _.
  apply Forall2_map_r_same, Forall_forall. intros [re im] _. simpl.
  assert (Ha : 0 <= re * re + im * im) by nra.
  set (den := re * re + im * im + noise).
  assert (Hden : 0 < den) by (unfold den; lra).
  split.
  - intros [= H1 H2].
    assert (Hre : re = 0).
    { apply Rmult_eq_reg_r with (/ den);
        [|apply Rinv_neq_0_compat; lra].
      unfold Rdiv in H1. rewrite H1. ring. }
    assert (Him : im = 0).
    { apply Rmult_eq_reg_r with (/ den);
        [|apply Rinv_neq_0_compat; lra].
      unfold Rdiv in H2. rewrite H2. ring. }
    now subst.
  - intros [= -> ->]. unfold Rdiv. now rewrite !Rmult_0_l.
Qed.

Lemma wiener_inverse_zero_bins_witness :
  Forall2 (Forall2 (fun P q => q = (0, 0) <-> P = (0, 0)))
          [[(1, 0); (0, 0)]] (wiener_inverse [[(1, 0); (0, 0)]] 1).
Proof. apply (wiener_inverse_zero_bins [[(1, 0); (0, 0)]] 1). lra. Defined.

(** X12.  The noise level falls strictly as the SNR slider rises, from 1
    at 0 dB; it never exceeds 1. *)
Theorem noise_level_decreasing (v1 v2 : nat) :
  (v1 < v2)%nat ->
  noise_level v2 < noise_level v1 /\
  noise_level 0 = 1 /\
  noise_level v1 <= 1.
Proof.
  intros Hv.
  assert (H0 : noise_level 0 = 1).
  { unfold noise_level. simpl. rewrite Rmult_0_r. apply Rpower_O. lra. }
  split; [|split; [exact H0|]].
  - unfold noise_level. apply Rpower_lt; [lra|].
    apply lt_INR in Hv. lra.
  - rewrite <- H0. unfold noise_level. apply Rle_Rpower; [lra|].
    pose proof (pos_INR v1). simpl. lra.
Qed.

Lemma noise_level_decreasing_witness :
  noise_level 25 < noise_level 10 /\
  noise_level 0 = 1 /\
  noise_level 10 <= 1.
Proof. apply (noise_level_decreasing 10 25). lia. Defined.

(** ** Normalisation *)

Lemma mat_map_id_ext (f : R -> R) (m : matrix) :
  (forall v, f v = v) -> mat_map f m = m.
Proof.
  intros Hf. unfold mat_map.
  rewrite (map_ext _ (fun r => r)); [apply map_id|].
  intros r. rewrite (map_ext _ (fun v => v)); [apply map_id|exact Hf].
Qed.

(** X13.  Normalising twice is the same as normalising once, for a kernel
    whose sum is not zero. *)
Theorem normalize_idempotent (psf : matrix) :
  mat_sum psf <> 0 -> normalize (normalize psf) = normalize psf.
Proof.
  intros Hs. unfold normalize at 1.
  rewrite (mat_sum_normalize psf Hs).
  apply mat_map_id_ext. intros v. field.
Qed.

Lemma normalize_idempotent_witness :
  normalize (normalize (ones 2 2)) = normalize (ones 2 2).
Proof.
  apply (normalize_idempotent (ones 2 2)).
  unfold mat_sum, row_sum. simpl. lra.
Defined.

Lemma row_sum_nonneg (r : list R) :
  Forall (fun v => 0 <= v) r ->
  0 <= row_sum r /\ forall v, In v r -> v <= row_sum r.
Proof.
  induction 1 as [|a r Ha Hr [IH0 IH]]; simpl.
  - split; [lra|contradiction].
  - split; [lra|]. intros v [<-|Hin]; [lra|]. specialize (IH v Hin). lra.
Qed.

Lemma mat_sum_nonneg (m : matrix) :
  Forall (Forall (fun v => 0 <= v)) m ->
  0 <= mat_sum m /\
  forall r v, In r m -> In v r -> v <= mat_sum m.
Proof.
  unfold mat_sum.
  induction 1 as [|r0 m Hr0 Hm [IH0 IH]]; simpl.
  - split; [lra|contradiction].
  - destruct (row_sum_nonneg r0 Hr0) as [H0 Hle].
    split; [lra|]. intros r v [<-|Hin] Hv.
    + specialize (Hle v Hv). lra.
    + specialize (IH r v Hin Hv). lra.
Qed.

(** X14.  After normalisation the defocus kernel is a distribution: every
    entry lies between 0 and 1 (and the entries sum to 1), whenever the
    drawn disk is not empty. *)
Theorem normalized_defocus_kernel_unit (cv : OpenCV) (d sz : nat) :
  mat_sum (defocus_kernel cv d sz) <> 0 ->
  Forall (Forall (fun v => 0 <= v <= 1)) (normalize (defocus_kernel cv d sz))
  /\ mat_sum (normalize (defocus_kernel cv d sz)) = 1.
Proof.
  intros Hs. split; [|now apply mat_sum_normalize].
  set (k := defocus_kernel cv d sz) in *.
  assert (Hk : Forall (Forall (fun v => 0 <= v)) k).
  { unfold k, defocus_kernel, u8_to_unit.
    apply Forall_map, Forall_forall. intros r _.
    apply Forall_map, Forall_forall. intros b _.
    pose proof (byte_val_range b). unfold Rdiv.
    apply Rmult_le_pos; lra. }
  destruct (mat_sum_nonneg k Hk) as [H0 Hle].
  assert (Hpos : 0 < mat_sum k) by lra.
  unfold normalize, mat_map.
  apply Forall_forall. intros r' Hr'.
  apply in_map_iff in Hr'. destruct Hr' as (r & <- & Hr).
  apply Forall_forall. intros v' Hv'.
  apply in_map_iff in Hv'. destruct Hv' as (v & <- & Hv).
  specialize (Hle r v Hr Hv).
  rewrite Forall_forall in Hk. specialize (Hk r Hr).
  rewrite Forall_forall in Hk. specialize (Hk v Hv).
  split.
  - unfold Rdiv. apply Rmult_le_pos; [lra|].
    left. now apply Rinv_0_lt_compat.
  - apply Rmult_le_reg_r with (mat_sum k); [lra|].
    unfold Rdiv. rewrite Rmult_assoc, Rinv_l by lra. lra.
Qed.

Lemma normalized_defocus_kernel_unit_witness :
  Forall (Forall (fun v => 0 <= v <= 1))
         (normalize (defocus_kernel cv_dot 3 2))
  /\ mat_sum (normalize (defocus_kernel cv_dot 3 2)) = 1.
Proof.
  apply (normalized_defocus_kernel_unit cv_dot 3 2).
  unfold mat_sum, row_sum, defocus_kernel, u8_to_unit, byte_val. simpl. lra.
Defined.

Example normalized_defocus_kernel_example :
  normalize (defocus_kernel cv_dot 3 2)
  = [[255 / 255 / (255 / 255 + (255 / 255 + 0) + (0 / 255 + (0 / 255 + 0) + 0));
      255 / 255 / (255 / 255 + (255 / 255 + 0) + (0 / 255 + (0 / 255 + 0) + 0))];
     [0 / 255 / (255 / 255 + (255 / 255 + 0) + (0 / 255 + (0 / 255 + 0) + 0));
      0 / 255 / (255 / 255 + (255 / 255 + 0) + (0 / 255 + (0 / 255 + 0) + 0))]].
Proof. reflexivity. Qed.

(** ** The motion kernel's affine map *)

(** X15.  The matrix handed to [cv.warpAffine] by [motion_kernel] is a
    rotation by [angle] (determinant 1) followed by the translation that
    sends the midpoint ((d-1)/2, 0) of the 1 x d line to the canvas centre
    (sz//2, sz//2). *)
Theorem motion_affine_centred (cv : OpenCV) (angle : R) (d sz : nat) :
  motion_kernel cv angle d sz
  = warpAffine cv (ones 1 d) (motion_affine angle d sz) (sz, sz) INTER_CUBIC
  /\ apply_affine (motion_affine angle d sz) ((INR d - 1) / 2, 0)
     = (INR (sz / 2), INR (sz / 2))
  /\ (let '((a, b, _), (c, e, _)) := motion_affine angle d sz in
      a * e - b * c = 1).
Proof.
  split; [reflexivity|]. split.
  - unfold apply_affine, motion_affine. simpl. f_equal; field.
  - unfold motion_affine.
    pose proof (sin2_cos2 angle) as H. unfold Rsqr in H. lra.
Qed.

(** ** Scaling of the grayscale image *)

(** X16.  The grayscale image that [main] conditions has been divided by
    255 twice: each of its samples is the uint8 value over 65025 and lies
    between 0 and 1/255. *)
Theorem main_unit_image_range (img : list (list byte)) :
  main_unit_image img = map (map (fun b => byte_val b / 65025)) img /\
  Forall (Forall (fun v => 0 <= v <= 1 / 255)) (main_unit_image img).
Proof.
  assert (Heq : main_unit_image img
                = map (map (fun b => byte_val b / 65025)) img).
  { unfold main_unit_image, u8_to_unit, mat_map. rewrite map_map.
    apply map_ext. intros r. rewrite map_map.
    apply map_ext. intros b. field. }
  split; [exact Heq|]. rewrite Heq.
  apply Forall_map, Forall_forall. intros r _.
  apply Forall_map, Forall_forall. intros b _.
  pose proof (byte_val_range b). lra.
Qed.

(** ** Shape of the defocus kernel *)

(** X17.  The defocus kernel is a square array of side sz whose entries lie
    between 0 and 1, for every diameter and every sz > 0. *)
Theorem defocus_kernel_square (cv : OpenCV) (d sz : nat) :
  OpenCV_shapes cv -> (0 < sz)%nat ->
  is_matrix sz sz (defocus_kernel cv d sz) /\
  shape (defocus_kernel cv d sz) = (sz, sz) /\
  Forall (Forall (fun v => 0 <= v <= 1)) (defocus_kernel cv d sz).
Proof.
  intros Hcv Hsz.
  destruct (defocus_kernel_square_unit cv d sz Hcv) as [Hs Hr].
  split; [exact Hs|]. split; [|exact Hr].
  now apply is_matrix_shape.
Qed.

Lemma defocus_kernel_square_witness :
  is_matrix 2 2 (defocus_kernel cv_dot 3 2) /\
  shape (defocus_kernel cv_dot 3 2) = (2, 2)%nat /\
  Forall (Forall (fun v => 0 <= v <= 1)) (defocus_kernel cv_dot 3 2).
Proof.
  apply (defocus_kernel_square cv_dot 3 2); [exact cv_dot_shapes|lia].
Defined.

(** ** The key loop and the session *)

(** X18.  In the key loop every key other than ESC (27) and space (32) is
    ignored: after any number of such keys the loop is still waiting and
    nothing has happened, and the first ESC leaves the loop whatever
    follows. *)
Theorem key_loop_esc (cv : OpenCV) (IMG_BW : spectrum) (roi_bw : roi)
        (tb : trackbars) (defocus : bool) (ks rest : list Z) :
  Forall (fun ch => ch <> 27%Z /\ ch <> 32%Z) ks ->
  key_loop cv IMG_BW roi_bw tb defocus ks = ([], Ok None) /\
  key_loop cv IMG_BW roi_bw tb defocus (ks ++ 27%Z :: rest)
  = ([], Ok (Some tt)).
Proof.
  induction 1 as [|ch ks [H27 H32] _ [IH1 IH2]]; simpl.
  - split; reflexivity.
  - destruct (Z.eqb_spec ch 27); [contradiction|].
    destruct (Z.eqb_spec ch 32); [contradiction|].
    split; assumption.
Qed.

Lemma key_loop_esc_witness :
  key_loop cv_plain [] (0, 0, 1, 1)%Z (initial_trackbars no_options) false
           [97; 13]%Z = ([], Ok None) /\
  key_loop cv_plain [] (0, 0, 1, 1)%Z (initial_trackbars no_options) false
           ([97; 13] ++ 27 :: [32; 32])%Z = ([], Ok (Some tt)).
Proof.
  apply (key_loop_esc cv_plain [] (0, 0, 1, 1)%Z
           (initial_trackbars no_options) false [97; 13]%Z [32; 32]%Z).
  repeat constructor; lia.
Defined.

(** ** The inverse filter against the kernel spectrum *)

Lemma Forall2_map_map {A B C : Type} (P : B -> C -> Prop) (f : A -> B)
      (g : A -> C) (l : list A) :
  Forall (fun a => P (f a) (g a)) l -> Forall2 P (map f l) (map g l).
Proof. induction 1; simpl; constructor; auto. Qed.

(** X20.  With a positive noise level each bin q of the inverse filter
    points along the bin P of the kernel spectrum it was computed from
    (re P * im q = im P * re q), and their inner product is
    |P|^2 / (|P|^2 + noise), which is at least 0 and below 1: the filter
    never reaches the unregularised inverse. *)
Theorem wiener_inverse_along_kernel (PSF : spectrum) (noise : R) :
  0 < noise ->
  Forall2 (Forall2 (fun P q =>
             let P2 := fst P * fst P + snd P * snd P in
             fst P * snd q = snd P * fst q /\
             fst P * fst q + snd P * snd q = P2 / (P2 + noise) /\
             0 <= P2 / (P2 + noise) < 1))
          PSF (wiener_inverse PSF noise).
Proof.
  intros Hn. rewrite wiener_inverse_map.
  apply Forall2_map_r_same, Forall_forall. intros row _.
  apply Forall2_map_r_same, Forall_forall. intros [re im] _. simpl.
  pose proof (Rle_0_sqr re) as Hre. pose proof (Rle_0_sqr im) as Him.
  unfold Rsqr in Hre, Him.
  set (a := re * re + im * im) in *.
  assert (Ha : 0 <= a) by (unfold a; lra).
  assert (Hden : 0 < a + noise) by lra.
  assert (Hu : 0 < / (a + noise)) by (now apply Rinv_0_lt_compat).
  split; [unfold Rdiv; ring|].
  split; [unfold a, Rdiv; ring|].
  split.
  - unfold Rdiv. apply Rmult_le_pos; lra.
  - apply Rmult_lt_reg_r with (a + noise); [exact Hden|].
    unfold Rdiv. rewrite Rmult_assoc, Rinv_l by lra. lra.
Qed.

Lemma wiener_inverse_along_kernel_witness :
  Forall2 (Forall2 (fun P q =>
             let P2 := fst P * fst P + snd P * snd P in
             fst P * snd q = snd P * fst q /\
             fst P * fst q + snd P * snd q = P2 / (P2 + 1) /\
             0 <= P2 / (P2 + 1) < 1))
          [[(3, 4); (0, 0)]] (wiener_inverse [[(3, 4); (0, 0)]] 1).
Proof.
  apply (wiener_inverse_along_kernel [[(3, 4); (0, 0)]] 1). lra.
Defined.

(** X21.  Raising the noise level never enlarges the filter: for
    0 < n1 <= n2 the squared magnitude of every bin computed with n2 is at
    most that of the same bin computed with n1. *)
Theorem wiener_inverse_monotone (PSF : spectrum) (n1 n2 : R) :
  0 < n1 -> n1 <= n2 ->
  Forall2 (Forall2 (fun q1 q2 =>
             fst q2 * fst q2 + snd q2 * snd q2
             <= fst q1 * fst q1 + snd q1 * snd q1))
          (wiener_inverse PSF n1) (wiener_inverse PSF n2).
Proof.
  intros H1 H12. rewrite !wiener_inverse_map.
  apply Forall2_map_map, Forall_forall. intros row _.
  apply Forall2_map_map, Forall_forall. intros [re im] _. simpl.
  pose proof (Rle_0_sqr re) as Hre. pose proof (Rle_0_sqr im) as Him.
  unfold Rsqr in Hre, Him.
  set (a := re * re + im * im) in *.
  assert (Ha : 0 <= a) by (unfold a; lra).
  set (u1 := / (a + n1)). set (u2 := / (a + n2)).
  assert (Hu2 : 0 < u2) by (apply Rinv_0_lt_compat; lra).
  assert (Hle : u2 <= u1) by (apply Rinv_le_contravar; lra).
  assert (Hsq : u2 * u2 <= u1 * u1) by (apply Rmult_le_compat; lra).
  replace (re / (a + n2) * (re / (a + n2)) + im / (a + n2) * (im / (a + n2)))
    with (a * (u2 * u2)) by (unfold u2, a, Rdiv; ring).
  replace (re / (a + n1) * (re / (a + n1)) + im / (a + n1) * (im / (a + n1)))
    with (a * (u1 * u1)) by (unfold u1, a, Rdiv; ring).
  apply Rmult_le_compat_l; lra.
Qed.

Lemma wiener_inverse_monotone_witness :
  Forall2 (Forall2 (fun q1 q2 =>
             fst q2 * fst q2 + snd q2 * snd q2
             <= fst q1 * fst q1 + snd q1 * snd q1))
          (wiener_inverse [[(3, 4); (0, 0)]] 1)
          (wiener_inverse [[(3, 4); (0, 0)]] 2).
Proof.
  apply (wiener_inverse_monotone [[(3, 4); (0, 0)]] 1 2); lra.
Defined.

(** * Runs of update and main *)

(** ** update stops at the kernel padding *)

Lemma update_outcome cv IMG_BW roi_bw defocus tb :
  let synth := synth_kernel cv defocus (deg2rad (INR (tb_angle tb)))
                            (tb_d tb) default_sz in
  (exists psf, synth = Ok psf /\
     update cv IMG_BW roi_bw defocus tb
     = ([EvImshow "psf" psf], Raise "IndexError")) \/
  (exists e, synth = Raise e /\
     update cv IMG_BW roi_bw defocus tb = ([], Raise e)).
Proof.
  intros synth. destruct synth as [psf|e] eqn:Hs; subst synth.
  - left. exists psf. split; [reflexivity|]. now apply update_after_synth.
  - right. exists e. split; [reflexivity|]. now apply update_synth_raise.
Qed.



(** ** blur_edge as main runs it *)

Lemma is_empty_false {A : Type} (h w : nat) (m : list (list A)) :
  is_matrix h w m -> (0 < h)%nat -> (0 < w)%nat -> is_empty m = false.
Proof.
  intros Hm Hh Hw. unfold is_empty. rewrite (is_matrix_shape h w m Hm Hh).
  destruct h, w; try lia. reflexivity.
Qed.

Lemma is_empty_true {A : Type} (h w : nat) (m : list (list A)) :
  is_matrix h w m -> (h = 0 \/ w = 0)%nat -> is_empty m = true.
Proof.
  intros Hm He. unfold is_empty.
  destruct h as [|h].
  - destruct Hm as [Hl _]. destruct m; [reflexivity|discriminate Hl].
  - rewrite (is_matrix_shape (S h) w m Hm) by lia.
    destruct He as [He|He]; [discriminate He|]. subst w. reflexivity.
Qed.

Lemma blur_edge_run_ok cv (h w : nat) (img : matrix) (d : nat) :
  is_matrix h w img -> (0 < h)%nat -> (0 < w)%nat -> (0 < d)%nat ->
  blur_edge_run cv img d
  = ([EvCopyMakeBorder d; EvGaussianBlur ((2 * d + 1)%nat, (2 * d + 1)%nat)],
     Ok (blur_edge cv img d)).
Proof.
  intros Hm Hh Hw Hd. unfold blur_edge_run.
  rewrite (is_empty_false h w img Hm Hh Hw).
  destruct (Nat.eqb_spec d 0) as [H0|_]; [lia|]. reflexivity.
Qed.

Lemma blur_edge_run_empty cv (h w : nat) (img : matrix) (d : nat) :
  is_matrix h w img -> (h = 0 \/ w = 0)%nat ->
  blur_edge_run cv img d = ([], Raise "cv2.error").
Proof.
  intros Hm He. unfold blur_edge_run.
  now rewrite (is_empty_true h w img Hm He).
Qed.

Lemma channel_crop_shape (img_color : list (list pixel))
      (H W x y w h k : nat) :
  is_matrix H W img_color -> (y + h <= H)%nat -> (x + w <= W)%nat ->
  is_matrix h w
    (u8_to_unit
       (map (map (channel k))
            (crop_roi (Z.of_nat x, Z.of_nat y, Z.of_nat w, Z.of_nat h)
                      img_color))).
Proof.
  intros Hc Hy Hx. unfold u8_to_unit. do 2 apply is_matrix_map.
  now apply (crop_roi_shape img_color H W).
Qed.

(** ** main up to the first call of update *)

Lemma main_gray_ok cv (img : list (list byte)) (H W : nat) :
  is_matrix H W img -> (0 < H)%nat -> (0 < W)%nat ->
  blur_edge_run cv (main_unit_image img) blur_edge_default_d
  = ([EvCopyMakeBorder 31; EvGaussianBlur (63, 63)%nat],
     Ok (main_conditioned cv img)).
Proof.
  intros Hm HH HW.
  apply (blur_edge_run_ok cv H W); auto.
  - now apply is_matrix_main_unit_image.
  - unfold blur_edge_default_d. lia.
Qed.

Section MainRuns.
Variable cv : OpenCV.
Variables (img : list (list byte)) (img_color : list (list pixel)).
Variables (H W x y w h : nat).
Hypothesis Himg : is_matrix H W img.
Hypothesis Hcolor : is_matrix H W img_color.
Hypothesis HH : (0 < H)%nat.
Hypothesis HW : (0 < W)%nat.
Hypothesis Hy : (y + h <= H)%nat.
Hypothesis Hx : (x + w <= W)%nat.

Let roi_color : roi := (Z.of_nat x, Z.of_nat y, Z.of_nat w, Z.of_nat h).
Let c : list event := [EvCopyMakeBorder 31; EvGaussianBlur (63, 63)%nat].

Lemma main_channel_ok (k : nat) :
  (0 < h)%nat -> (0 < w)%nat ->
  exists m,
    main_channel_conditioned cv img_color roi_color k = (c, Ok m) /\
    (OpenCV_shapes cv -> is_matrix h w m).
Proof.
  intros Hh Hw. eexists. split.
  - unfold main_channel_conditioned.
    apply (blur_edge_run_ok cv h w); auto.
    + now apply (channel_crop_shape img_color H W).
    + unfold blur_edge_default_d. lia.
  - intros Hcv. apply blur_edge_shape; auto.
    + now apply (channel_crop_shape img_color H W).
    + unfold blur_edge_default_d. lia.
Qed.

Lemma main_channel_empty (k : nat) :
  (h = 0 \/ w = 0)%nat ->
  main_channel_conditioned cv img_color roi_color k = ([], Raise "cv2.error").
Proof.
  intros He. unfold main_channel_conditioned.
  apply (blur_edge_run_empty cv h w); auto.
  now apply (channel_crop_shape img_color H W).
Qed.

Lemma main_setup_ok :
  (0 < h)%nat -> (0 < w)%nat ->
  main_setup cv img img_color roi_color
  = (c ++ c ++ c ++ c ++ [EvDft; EvDft; EvDft; EvDft],
     Ok (dft cv (Arr2 (main_conditioned cv img)) 0)).
Proof.
  intros Hh Hw. unfold main_setup.
  rewrite (main_gray_ok cv img H W Himg HH HW).
  destruct (main_channel_ok 0 Hh Hw) as (m0 & -> & _).
  destruct (main_channel_ok 1 Hh Hw) as (m1 & -> & _).
  destruct (main_channel_ok 2 Hh Hw) as (m2 & -> & _).
  reflexivity.
Qed.

Lemma main_setup_empty :
  (h = 0 \/ w = 0)%nat ->
  main_setup cv img img_color roi_color = (c, Raise "cv2.error").
Proof.
  intros He. unfold main_setup.
  rewrite (main_gray_ok cv img H W Himg HH HW).
  rewrite (main_channel_empty 0 He). reflexivity.
Qed.

Lemma main_outcome (roi_bw : roi) (o : options) :
  let tb := initial_trackbars o in
  let synth := synth_kernel cv (opt_circle o) (deg2rad (INR (tb_angle tb)))
                            (tb_d tb) default_sz in
  let pre := c ++ c ++ c ++ c ++ [EvDft; EvDft; EvDft; EvDft] in
  ((h = 0 \/ w = 0)%nat /\
   main cv img img_color roi_bw roi_color o = (c, Raise "cv2.error")) \/
  ((0 < h /\ 0 < w)%nat /\ exists psf, synth = Ok psf /\
   main cv img img_color roi_bw roi_color o
   = (pre ++ [EvImshow "psf" psf], Raise "IndexError")) \/
  ((0 < h /\ 0 < w)%nat /\ exists e, synth = Raise e /\
   main cv img img_color roi_bw roi_color o = (pre, Raise e)).
Proof.
  intros tb synth pre. unfold main.
  destruct (Nat.eq_dec h 0) as [Hh|Hh];
    [left; split; [now left|]; rewrite main_setup_empty by (now left);
     reflexivity|].
  destruct (Nat.eq_dec w 0) as [Hw|Hw];
    [left; split; [now right|]; rewrite main_setup_empty by (now right);
     reflexivity|].
  right. rewrite main_setup_ok by lia.
  destruct (update_outcome cv (dft cv (Arr2 (main_conditioned cv img)) 0)
              roi_bw (opt_circle o) tb)
    as [(psf & Hs & Hu)|(e & Hs & Hu)].
  - left. split; [lia|]. exists psf. split; [exact Hs|].
    unfold bind. fold tb. rewrite Hu. reflexivity.
  - right. split; [lia|]. exists e. split; [exact Hs|].
    unfold bind. fold tb. rewrite Hu. unfold pre. now rewrite !app_nil_r.
Qed.


End MainRuns.

Lemma frame_pos : (0 < frame_h)%nat /\ (0 < frame_w)%nat.
Proof. unfold frame_h, frame_w. lia. Qed.

(** ** Parameter handling in main and update *)

(** C3 (as stated it fails).  A run whose diameter slider is 0 does not end
    with InvalidParameter before any transform and without output: on a
    white 640 x 480 frame with the whole frame selected, in defocus mode,
    the exception that ends the run is not InvalidParameter. *)
Lemma diameter_zero_not_rejected :
  ~ (forall (cv : OpenCV) (img : list (list byte))
            (img_color : list (list pixel)) (roi_bw roi_color : roi)
            (o : options),
        is_matrix frame_h frame_w img ->
        is_matrix frame_h frame_w img_color ->
        tb_d (initial_trackbars o) = 0%nat ->
        snd (main cv img img_color roi_bw roi_color o)
        = Raise "InvalidParameter" /\
        ~ In EvDft (fst (main cv img img_color roi_bw roi_color o)) /\
        forall win' k,
          ~ In (EvImshow win' k)
               (fst (main cv img img_color roi_bw roi_color o))).
Proof.
  intros H.
  set (img := repeat (repeat Byte.xff frame_w) frame_h).
  set (imgc := repeat (repeat (Byte.xff, Byte.xff, Byte.xff) frame_w) frame_h).
  set (o := {| opt_circle := true; opt_angle := None;
               opt_d := Some 0%nat; opt_snr := None |}).
  assert (Hi : is_matrix frame_h frame_w img) by apply is_matrix_repeat.
  assert (Hc : is_matrix frame_h frame_w imgc) by apply is_matrix_repeat.
  destruct frame_pos as [HH HW].
  specialize (H cv_plain img imgc (0, 0, 640, 480)%Z
                (Z.of_nat 0, Z.of_nat 0, Z.of_nat frame_w, Z.of_nat frame_h)
                o Hi Hc eq_refl).
  destruct H as [H _].
  destruct (main_outcome cv_plain img imgc frame_h frame_w 0 0 frame_w frame_h
              Hi Hc HH HW (Nat.le_refl _) (Nat.le_refl _)
              (0, 0, 640, 480)%Z o)
    as [(_ & Hm)|[(_ & psf & _ & Hm)|(_ & e & Hs & _)]].
  - rewrite Hm in H. discriminate H.
  - rewrite Hm in H. discriminate H.
  - discriminate Hs.
Qed.

(** C3 (amended).  The script validates nothing and has no InvalidParameter
    error.  On a 640 x 480 frame with a non-empty colour selection inside
    it, whatever the diameter, 0 included: the four forward transforms of
    the images have run before the kernel is built, the noise level derived
    from the SNR slider is strictly positive, and whenever the kernel
    synthesiser returns a kernel for that diameter, the kernel is displayed
    after those transforms and the run does not end with
    InvalidParameter. *)
Theorem main_no_parameter_check (cv : OpenCV) (img : list (list byte))
        (img_color : list (list pixel)) (roi_bw : roi) (x y w h : nat)
        (o : options) (psf : matrix) :
  is_matrix frame_h frame_w img -> is_matrix frame_h frame_w img_color ->
  (0 < h)%nat -> (0 < w)%nat ->
  (y + h <= frame_h)%nat -> (x + w <= frame_w)%nat ->
  let tb := initial_trackbars o in
  synth_kernel cv (opt_circle o) (deg2rad (INR (tb_angle tb))) (tb_d tb)
               default_sz = Ok psf ->
  let r := main cv img img_color roi_bw
                (Z.of_nat x, Z.of_nat y, Z.of_nat w, Z.of_nat h) o in
  (exists pre post,
      fst r = pre ++ EvDft :: EvDft :: EvDft :: EvDft
                  :: EvImshow "psf" psf :: post) /\
  snd r <> Raise "InvalidParameter" /\
  0 < noise_level (tb_snr tb).
Proof.
  intros Hi Hc Hh Hw Hy Hx tb Hs r.
  destruct frame_pos as [HH HW].
  destruct (main_outcome cv img img_color frame_h frame_w x y w h
              Hi Hc HH HW Hy Hx roi_bw o)
    as [(He & _)|[(_ & psf' & Hs' & Hm)|(_ & e & Hs' & _)]].
  - lia.
  - fold tb in Hs'. rewrite Hs in Hs'. injection Hs' as <-.
    unfold r. rewrite Hm. cbn [fst snd].
    split; [|split; [discriminate|apply noise_level_pos]].
    exists ([EvCopyMakeBorder 31; EvGaussianBlur (63, 63)%nat]
            ++ [EvCopyMakeBorder 31; EvGaussianBlur (63, 63)%nat]
            ++ [EvCopyMakeBorder 31; EvGaussianBlur (63, 63)%nat]
            ++ [EvCopyMakeBorder 31; EvGaussianBlur (63, 63)%nat]), [].
    reflexivity.
  - fold tb in Hs'. rewrite Hs in Hs'. discriminate Hs'.
Qed.

Lemma main_no_parameter_check_witness :
  let img := repeat (repeat Byte.xff frame_w) frame_h in
  let img_color := repeat (repeat (Byte.xff, Byte.xff, Byte.xff) frame_w)
                          frame_h in
  let o := {| opt_circle := true; opt_angle := None; opt_d := Some 0%nat;
              opt_snr := None |} in
  let r := main cv_plain img img_color (0, 0, 640, 480)%Z
                (Z.of_nat 0, Z.of_nat 0, Z.of_nat frame_w, Z.of_nat frame_h)
                o in
  tb_d (initial_trackbars o) = 0%nat /\
  (exists pre post,
      fst r = pre ++ EvDft :: EvDft :: EvDft :: EvDft
                  :: EvImshow "psf" (defocus_kernel cv_plain 0 default_sz)
                  :: post) /\
  snd r <> Raise "InvalidParameter" /\
  0 < noise_level 25.
Proof.
  intros img img_color o r. split; [reflexivity|].
  apply (main_no_parameter_check cv_plain img img_color (0, 0, 640, 480)%Z
           0 0 frame_w frame_h o (defocus_kernel cv_plain 0 default_sz)).
  - apply is_matrix_repeat.
  - apply is_matrix_repeat.
  - exact (proj1 frame_pos).
  - exact (proj2 frame_pos).
  - apply Nat.le_refl.
  - apply Nat.le_refl.
  - reflexivity.
Defined.

(** ** The pad width used by main *)

(** C6 (as stated it fails).  The border width [main] passes to
    [cv.copyMakeBorder] when it conditions the images is not the configured
    diameter: on a white 640 x 480 frame with the whole frame selected and
    no option given, the diameter is 22 and the border width passed is
    31, whatever the library returns. *)
Lemma pad_width_is_not_diameter :
  ~ (forall (cv : OpenCV) (img : list (list byte))
            (img_color : list (list pixel)) (roi_bw roi_color : roi)
            (o : options) (p : nat),
        is_matrix frame_h frame_w img ->
        is_matrix frame_h frame_w img_color ->
        In (EvCopyMakeBorder p)
           (fst (main cv img img_color roi_bw roi_color o)) ->
        p = tb_d (initial_trackbars o)).
Proof.
  intros H.
  set (img := repeat (repeat Byte.xff frame_w) frame_h).
  set (imgc := repeat (repeat (Byte.xff, Byte.xff, Byte.xff) frame_w) frame_h).
  assert (Hi : is_matrix frame_h frame_w img) by apply is_matrix_repeat.
  assert (Hc : is_matrix frame_h frame_w imgc) by apply is_matrix_repeat.
  destruct frame_pos as [HH HW].
  specialize (H cv_plain img imgc (0, 0, 640, 480)%Z
                (Z.of_nat 0, Z.of_nat 0, Z.of_nat frame_w, Z.of_nat frame_h)
                no_options 31%nat Hi Hc).
  assert (H31 : 31%nat = tb_d (initial_trackbars no_options)).
  { apply H.
    destruct (main_outcome cv_plain img imgc frame_h frame_w 0 0 frame_w
                frame_h Hi Hc HH HW (Nat.le_refl _) (Nat.le_refl _)
                (0, 0, 640, 480)%Z no_options)
      as [(_ & ->)|[(_ & psf & _ & ->)|(_ & e & _ & ->)]];
      left; reflexivity. }
  discriminate H31.
Qed.

(** C6 (amended).  [main] conditions the images with the fixed pad width
    31, the default of [blur_edge], whatever the options and the sliders:
    on a 640 x 480 frame the first library call is [cv.copyMakeBorder] with
    border 31, every such call of the run has border 31 and every
    [cv.GaussianBlur] has kernel size 63 x 63, and each sample (y, x) of
    the conditioned grayscale image is original * w + blurred * (1 - w)
    with w = min(dist / 31, 1), dist being the least of x, 639 - x, y and
    479 - y. *)
Theorem main_conditions_with_default_pad (cv : OpenCV)
        (img : list (list byte)) (img_color : list (list pixel))
        (roi_bw : roi) (rx ry rw rh : nat) (o : options) (y x : nat) :
  OpenCV_shapes cv ->
  is_matrix frame_h frame_w img -> is_matrix frame_h frame_w img_color ->
  (ry + rh <= frame_h)%nat -> (rx + rw <= frame_w)%nat ->
  (y < frame_h)%nat -> (x < frame_w)%nat ->
  let r := main cv img img_color roi_bw
                (Z.of_nat rx, Z.of_nat ry, Z.of_nat rw, Z.of_nat rh) o in
  let src := main_unit_image img in
  let dist := Z.min (Z.min (Z.of_nat x) (639 - Z.of_nat x))
                    (Z.min (Z.of_nat y) (479 - Z.of_nat y)) in
  let wt := Rmin (IZR dist / 31) 1 in
  (exists t, fst r = EvCopyMakeBorder 31 :: EvGaussianBlur (63, 63)%nat :: t) /\
  (forall p, In (EvCopyMakeBorder p) (fst r) -> p = 31%nat) /\
  (forall k, In (EvGaussianBlur k) (fst r) -> k = (63, 63)%nat) /\
  blur_edge_run cv src blur_edge_default_d
  = ([EvCopyMakeBorder 31; EvGaussianBlur (63, 63)%nat],
     Ok (main_conditioned cv img)) /\
  px (main_conditioned cv img) y x
  = px src y x * wt + px (edge_blurred cv src 31) y x * (1 - wt).
Proof.
  intros Hcv Hi Hc Hry Hrx Hy Hx r src dist wt.
  destruct frame_pos as [HH HW].
  assert (Htrace :
    (exists t, fst r = EvCopyMakeBorder 31 :: EvGaussianBlur (63, 63)%nat :: t)
    /\ (forall p, In (EvCopyMakeBorder p) (fst r) -> p = 31%nat)
    /\ (forall k, In (EvGaussianBlur k) (fst r) -> k = (63, 63)%nat)).
  { unfold r.
    destruct (main_outcome cv img img_color frame_h frame_w rx ry rw rh
                Hi Hc HH HW Hry Hrx roi_bw o)
      as [(_ & ->)|[(_ & psf & _ & ->)|(_ & e & _ & ->)]]; cbn [fst app].
    - split; [now eexists|].
      split; intros ? Hin; simpl in Hin;
        repeat (destruct Hin as [Hin|Hin]; [congruence|]); contradiction.
    - split; [now eexists|].
      split; intros ? Hin; simpl in Hin;
        repeat (destruct Hin as [Hin|Hin]; [congruence|]); contradiction.
    - split; [now eexists|].
      split; intros ? Hin; simpl in Hin;
        repeat (destruct Hin as [Hin|Hin]; [congruence|]); contradiction. }
  destruct Htrace as (Ht1 & Ht2 & Ht3).
  split; [exact Ht1|]. split; [exact Ht2|]. split; [exact Ht3|].
  split; [exact (main_gray_ok cv img frame_h frame_w Hi HH HW)|].
  assert (Hsrc : is_matrix frame_h frame_w src)
    by (now apply is_matrix_main_unit_image).
  unfold main_conditioned, blur_edge_default_d. fold src.
  rewrite (blur_edge_px cv frame_h frame_w src 31 y x) by (auto; lia).
  unfold edge_weight, wt. rewrite INR_IZR_INZ.
  replace (dist_to_edge frame_h frame_w y x) with dist
    by (unfold dist, dist_to_edge, frame_h, frame_w; lia).
  reflexivity.
Qed.

Lemma main_conditions_with_default_pad_witness :
  let img := repeat (repeat Byte.xff frame_w) frame_h in
  let img_color := repeat (repeat (Byte.xff, Byte.xff, Byte.xff) frame_w)
                          frame_h in
  let r := main cv_plain img img_color (0, 0, 640, 480)%Z
                (Z.of_nat 0, Z.of_nat 0, Z.of_nat frame_w, Z.of_nat frame_h)
                no_options in
  let src := main_unit_image img in
  let dist := Z.min (Z.min (Z.of_nat 25) (639 - Z.of_nat 25))
                    (Z.min (Z.of_nat 100) (479 - Z.of_nat 100)) in
  let wt := Rmin (IZR dist / 31) 1 in
  (exists t, fst r = EvCopyMakeBorder 31 :: EvGaussianBlur (63, 63)%nat :: t) /\
  (forall p, In (EvCopyMakeBorder p) (fst r) -> p = 31%nat) /\
  (forall k, In (EvGaussianBlur k) (fst r) -> k = (63, 63)%nat) /\
  blur_edge_run cv_plain src blur_edge_default_d
  = ([EvCopyMakeBorder 31; EvGaussianBlur (63, 63)%nat],
     Ok (main_conditioned cv_plain img)) /\
  px (main_conditioned cv_plain img) 100 25
  = px src 100 25 * wt + px (edge_blurred cv_plain src 31) 100 25 * (1 - wt).
Proof.
  intros img img_color.
  apply (main_conditions_with_default_pad cv_plain img img_color
           (0, 0, 640, 480)%Z 0 0 frame_w frame_h no_options 100 25).
  - exact cv_plain_shapes.
  - apply is_matrix_repeat.
  - apply is_matrix_repeat.
  - apply Nat.le_refl.
  - apply Nat.le_refl.
  - unfold frame_h. lia.
  - unfold frame_w. lia.
Defined.

(** ** Conditioning of the grayscale image and of the colour channels *)

(** X7.  [main] conditions the grayscale image uncropped and the colour
    channels cropped to the selected rectangle: for an H x W input and a
    rectangle of h rows and w columns inside it, conditioning the grayscale
    image returns an H x W array; conditioning a colour channel returns an
    h x w array when the rectangle is not empty, and raises cv2.error, with
    no library call completed, when h = 0 or w = 0. *)
Theorem conditioned_shapes (cv : OpenCV) (img : list (list byte))
        (img_color : list (list pixel)) (H W x y w h k : nat) :
  OpenCV_shapes cv ->
  is_matrix H W img -> is_matrix H W img_color ->
  (0 < H)%nat -> (0 < W)%nat ->
  (y + h <= H)%nat -> (x + w <= W)%nat ->
  let roi_color := (Z.of_nat x, Z.of_nat y, Z.of_nat w, Z.of_nat h) in
  let calls := [EvCopyMakeBorder 31; EvGaussianBlur (63, 63)%nat] in
  (exists m, blur_edge_run cv (main_unit_image img) blur_edge_default_d
             = (calls, Ok m) /\ is_matrix H W m) /\
  ((0 < h /\ 0 < w)%nat ->
   exists m, main_channel_conditioned cv img_color roi_color k
             = (calls, Ok m) /\ is_matrix h w m) /\
  ((h = 0 \/ w = 0)%nat ->
   main_channel_conditioned cv img_color roi_color k
   = ([], Raise "cv2.error")).
Proof.
  intros Hcv Hm Hc HH HW Hy Hx roi_color calls. split; [|split].
  - exists (main_conditioned cv img).
    split; [exact (main_gray_ok cv img H W Hm HH HW)|].
    unfold main_conditioned, blur_edge_default_d.
    apply blur_edge_shape; auto; try lia.
    now apply is_matrix_main_unit_image.
  - intros [Hh Hw].
    destruct (main_channel_ok cv img_color H W x y w h Hc HH HW Hy Hx k Hh Hw)
      as (m & Hrun & Hshape).
    exists m. split; [exact Hrun|now apply Hshape].
  - intros He.
    exact (main_channel_empty cv img_color H W x y w h Hc Hy Hx k He).
Qed.

Lemma conditioned_shapes_witness :
  let img := repeat (repeat Byte.xff frame_w) frame_h in
  let img_color := repeat (repeat (Byte.x01, Byte.x02, Byte.x03) frame_w)
                          frame_h in
  let roi_color := (Z.of_nat 10, Z.of_nat 20, Z.of_nat 100, Z.of_nat 50) in
  let calls := [EvCopyMakeBorder 31; EvGaussianBlur (63, 63)%nat] in
  (exists m, blur_edge_run cv_plain (main_unit_image img) blur_edge_default_d
             = (calls, Ok m) /\ is_matrix frame_h frame_w m) /\
  ((0 < 50 /\ 0 < 100)%nat ->
   exists m, main_channel_conditioned cv_plain img_color roi_color 0
             = (calls, Ok m) /\ is_matrix 50 100 m) /\
  ((50 = 0 \/ 100 = 0)%nat ->
   main_channel_conditioned cv_plain img_color roi_color 0
   = ([], Raise "cv2.error")).
Proof.
  intros img img_color.
  apply (conditioned_shapes cv_plain img img_color frame_h frame_w
           10 20 100 50 0).
  - exact cv_plain_shapes.
  - apply is_matrix_repeat.
  - apply is_matrix_repeat.
  - exact (proj1 frame_pos).
  - exact (proj2 frame_pos).
  - unfold frame_h. lia.
  - unfold frame_w. lia.
Defined.

(** ** The session *)


